(** * QSettings back ends for WebAssembly (qsettings_wasm.cpp)

    A shallow embedding of the two settings back ends of
    [src/corelib/io/qsettings_wasm.cpp]:

    - [QWasmLocalStorageSettingsPrivate], which stores every setting as one
      entry of [window.localStorage] under a scope prefix, and
    - [QWasmIDBSettingsPrivate], which keeps the settings in a local file
      that is loaded from and stored to IndexedDB through asynchronous
      requests whose completion callbacks look the instance up in
      [liveSettings].

    [window.localStorage] is a finite map from strings to strings.  The
    objects of the IndexedDB back end live in a heap indexed by their
    address; a callback that would dereference an address that is not
    allocated has no result.  Everything the file calls but does not define
    (the virtual file system, the embedded [QConfFileSettingsPrivate], the
    browser) is on the other side of the model: what the program asks of it
    is recorded, what it answers is an input of the operation. *)

From Stdlib Require Import Ascii String.
From stdpp Require Import base option list strings gmap fin_maps.

(** ** Strings and string views *)

(** [QStringView::startsWith], on the characters. *)
Fixpoint startsWith (s prefix : string) {struct prefix} : bool :=
  match prefix with
  | EmptyString => true
  | String c prefix' =>
      match s with
      | EmptyString => false
      | String d s' => if Ascii.eqb c d then startsWith s' prefix' else false
      end
  end.

(** [QStringView::sliced(pos)]: the characters from [pos] on.  The source
    calls it with [pos <= size] only. *)
Fixpoint sliced (s : string) (pos : nat) {struct pos} : string :=
  match pos with
  | O => s
  | S n => match s with
           | EmptyString => EmptyString
           | String _ s' => sliced s' n
           end
  end.

(** [QString::replace(before, after)] for a one-character [before], the only
    use in the file: every occurrence of [before] becomes [after]. *)
Fixpoint replace (s : string) (before : ascii) (after : string) : string :=
  match s with
  | EmptyString => EmptyString
  | String c s' =>
      if Ascii.eqb c before then after +:+ replace s' before after
      else String c (replace s' before after)
  end.

(** A [QStringView] is a pointer and a size.  The default-constructed view
    [QStringView()] has the null pointer; a view of a string, and every
    slice of it, points into that string. *)
Record QStringView := mkView { isNull : bool; chars : string }.

Definition QStringView_null : QStringView := mkView true "".

(** The implicit conversion of a [QString] that holds characters. *)
Definition viewOf (s : string) : QStringView := mkView false s.

Definition isEmpty (v : QStringView) : bool :=
  Nat.eqb (String.length (chars v)) 0.

Definition view_sliced (v : QStringView) (pos : nat) : QStringView :=
  mkView (isNull v) (sliced (chars v) pos).

Definition view_startsWith (v : QStringView) (s : string) : bool :=
  startsWith (chars v) s.

(** Lines 28-34. *)
Definition keyNameFromPrefixedStorageName
    (prefix prefixedStorageName : QStringView) : QStringView :=
  if negb (startsWith (chars prefixedStorageName) (chars prefix))
  then QStringView_null
  else view_sliced prefixedStorageName (String.length (chars prefix)).

(** ** Shared enumerations *)

Inductive Status := NoError | AccessError.

Inductive Scope := UserScope | SystemScope.

Global Instance Status_eq_dec : EqDecision Status.
Proof. solve_decision. Defined.

Global Instance Scope_eq_dec : EqDecision Scope.
Proof. solve_decision. Defined.

(** The part of the [QSettingsPrivate] base object the file reads and
    writes: the status flag and the [fallbacks] switch. *)
Record QSettingsPrivate := mkBase { status : Status; fallbacks : bool }.

(** Modelled from the spec: [QSettingsPrivate::setStatus] is defined in
    qsettings.cpp; the spec has the status as one flag of the instance that
    a callback sets to the access error or clears. *)
Definition setStatus (d : QSettingsPrivate) (s : Status) : QSettingsPrivate :=
  mkBase s (fallbacks d).

(** ** The localStorage back end *)

Module LocalStorage.

(** [window.localStorage]: [getItem], [setItem], [removeItem], [length]
    and [key(i)].  The order in which [key] enumerates the entries is the
    browser's; here it is the order of [map_to_list]. *)
Definition getItem (st : gmap string string) (k : string) : option string :=
  st !! k.

Definition setItem (k v : string) (st : gmap string string)
  : gmap string string := <[k := v]> st.

Definition removeItem (k : string) (st : gmap string string)
  : gmap string string := delete k st.

Definition length (st : gmap string string) : nat := size st.

Definition key (st : gmap string string) (i : nat) : option string :=
  (map_to_list st).*1 !! i.

(** The object: the base part and [m_keyPrefixes]. *)
Record t := mk { base : QSettingsPrivate; m_keyPrefixes : list string }.

(** Lines 64-104.  [base0] is the base object as the base-class
    constructor leaves it. *)
Definition ctor (base0 : QSettingsPrivate) (scope : Scope)
    (organization application : string) : t :=
  if Nat.eqb (String.length organization) 0 then
    mk (setStatus base0 AccessError) []
  else
    let allAppsSetting := "all-apps" in
    let systemSetting := "sys-tem" in
    let separator := "-" in
    let doubleSeparator := "--" in
    let escapedOrganization := replace organization "-"%char doubleSeparator in
    let escapedApplication := replace application "-"%char doubleSeparator in
    let prefix := "qt-v0-" +:+ escapedOrganization +:+ separator in
    let l0 : list string := [] in
    let l1 :=
      match scope with
      | UserScope =>
          let l :=
            if negb (Nat.eqb (String.length escapedApplication) 0)
            then l0 ++ [prefix +:+ escapedApplication +:+ separator]
            else l0 in
          l ++ [prefix +:+ allAppsSetting +:+ separator]
      | SystemScope => l0
      end in
    let l2 :=
      if negb (Nat.eqb (String.length escapedApplication) 0)
      then l1 ++ [prefix +:+ escapedApplication +:+ separator
                    +:+ systemSetting +:+ separator]
      else l1 in
    mk base0
       (l2 ++ [prefix +:+ allAppsSetting +:+ separator
                 +:+ systemSetting +:+ separator]).

(** The keys [key(0)], ..., [key(length - 1)], as the loops of [remove]
    and [clear] read them. *)
Definition storedKeys (st : gmap string string) : list string :=
  omap (key st) (seq 0 (length st)).

(** Lines 108-122, the first pass of [remove]: the vector [children].
    [m_keyPrefixes.first()] on an empty list has no result. *)
Definition remove_children (d : t) (key : string) (st : gmap string string)
  : option (list string) :=
  first ← head (m_keyPrefixes d);
  let removed := first +:+ key in
  Some (foldl
          (fun children storedKeyWithPrefix =>
             let storedKey :=
               keyNameFromPrefixedStorageName
                 (viewOf first) (viewOf storedKeyWithPrefix) in
             if isEmpty storedKey || negb (view_startsWith storedKey key)
             then children
             else children ++ [storedKeyWithPrefix])
          [removed] (storedKeys st)).

(** Lines 106-126. *)
Definition remove (d : t) (key : string) (st : gmap string string)
  : option (gmap string string) :=
  children ← remove_children d key st;
  Some (foldl (fun st child => removeItem child st) st children).

(** Lines 177-193.  [m_keyPrefixes.first()] is evaluated once per stored
    key, inside the second loop. *)
Definition clear (d : t) (st : gmap string string)
  : option (gmap string string) :=
  let keys := storedKeys st in
  foldl
    (fun acc key =>
       st ← acc;
       first ← head (m_keyPrefixes d);
       if negb (isEmpty (keyNameFromPrefixedStorageName
                           (viewOf first) (viewOf key)))
       then Some (removeItem key st)
       else Some st)
    (Some st) keys.

(** Lines 195-207. *)
Definition sync (d : t) (st : gmap string string) : gmap string string := st.
Definition flush (d : t) (st : gmap string string) : gmap string string := st.
Definition isWritable (d : t) : bool := true.
Definition fileName (d : t) : string := "".

Section Variants.

(** [QVariant] and the pair [QSettingsPrivate::variantToString] and
    [QSettingsPrivate::stringToVariant], defined in qsettings.cpp. *)
Context {QVariant : Type}.
Variable variantToString : QVariant -> string.
Variable stringToVariant : string -> QVariant.

(** Lines 128-133. *)
Definition set (d : t) (key : string) (value : QVariant)
    (st : gmap string string) : option (gmap string string) :=
  first ← head (m_keyPrefixes d);
  let keyString := first +:+ key in
  let valueString := variantToString value in
  Some (setItem keyString valueString st).

(** Lines 135-147: the loop over [m_keyPrefixes]. *)
Fixpoint get_from (prefixes : list string) (fallbacks : bool)
    (key : string) (st : gmap string string) : option QVariant :=
  match prefixes with
  | [] => None
  | prefix :: rest =>
      let keyString := prefix +:+ key in
      match getItem st keyString with
      | Some value => Some (stringToVariant value)
      | None =>
          if negb fallbacks then None
          else get_from rest fallbacks key st
      end
  end.

Definition get (d : t) (key : string) (st : gmap string string)
  : option QVariant :=
  get_from (m_keyPrefixes d) (fallbacks (base d)) key st.

(** The members that may change the store, as the front end calls
    them. *)
Inductive Op :=
| op_set (key : string) (value : QVariant)
| op_remove (key : string)
| op_clear
| op_sync
| op_flush.

Definition exec (d : t) (o : Op) (st : gmap string string)
  : option (gmap string string) :=
  match o with
  | op_set key value => set d key value st
  | op_remove key => remove d key st
  | op_clear => clear d st
  | op_sync => Some (sync d st)
  | op_flush => Some (flush d st)
  end.

End Variants.

Arguments Op : clear implicits.

(** The prefixes the spec has [get] consult: all of them in order, or
    only the first when fallbacks are disabled. *)
Definition consulted (d : t) : list string :=
  if fallbacks (base d) then m_keyPrefixes d else take 1 (m_keyPrefixes d).

(** The most specific prefix that applies, after the spec's key format:
    "qt-v0-", the escaped organization, the escaped application or
    "all-apps" when there is none, and "sys-tem-" in system scope. *)
Definition mostSpecificPrefix (scope : Scope)
    (organization application : string) : string :=
  "qt-v0-" +:+ replace organization "-"%char "--" +:+ "-"
    +:+ (if Nat.eqb (String.length application) 0 then "all-apps"
         else replace application "-"%char "--")
    +:+ "-"
    +:+ match scope with UserScope => "" | SystemScope => "sys-tem-" end.

Section Children.

(** [QSettingsPrivate::ChildSpec] and [QSettingsPrivate::processChild],
    declared in qsettings_p.h and defined in qsettings.cpp:
    [processChild key spec result] is [result] after the call. *)
Context {ChildSpec : Type}.
Variable processChild : string -> ChildSpec -> list string -> list string.

(** Lines 157-171: the loop over [m_keyPrefixes] for one stored key, with
    its [break] when fallbacks are disabled. *)
Fixpoint children_of_key (prefixes : list string) (fallbacks : bool)
    (keyString prefix : string) (spec : ChildSpec) (nodes : gset string)
  : gset string :=
  match prefixes with
  | [] => nodes
  | storagePrefix :: rest =>
      let key :=
        keyNameFromPrefixedStorageName
          (viewOf storagePrefix) (viewOf keyString) in
      let nodes1 :=
        if negb (isEmpty key) && view_startsWith key prefix then
          let children :=
            processChild
              (chars (view_sliced key (String.length prefix))) spec [] in
          match head children with
          | Some child => {[ child ]} ∪ nodes
          | None => nodes
          end
        else nodes in
      if negb fallbacks then nodes1
      else children_of_key rest fallbacks keyString prefix spec nodes1
  end.

(** What one stored key adds to the set. *)
Definition child_of (prefixes : list string) (keyString prefix : string)
    (spec : ChildSpec) (child : string) : Prop :=
  ∃ storagePrefix name,
    storagePrefix ∈ prefixes
    ∧ keyString = storagePrefix +:+ name ∧ name ≠ ""
    ∧ startsWith name prefix = true
    ∧ head (processChild (sliced name (String.length prefix)) spec [])
      = Some child.

(** Lines 149-175.  The list is built from a [QSet]: its order is the
    set's. *)
Definition children (d : t) (prefix : string) (spec : ChildSpec)
    (st : gmap string string) : list string :=
  elements
    (foldl
       (fun nodes keyString =>
          children_of_key (m_keyPrefixes d) (fallbacks (base d))
            keyString prefix spec nodes)
       (∅ : gset string) (storedKeys st)).

End Children.

End LocalStorage.

(** ** The IndexedDB back end *)

Module IDB.

(** The members of one [QWasmIDBSettingsPrivate] object. *)
Record Object := mkObject {
  base : QSettingsPrivate;
  databaseName : string;
  id : string }.

(** The asynchronous requests, each with the [userData] pointer handed to
    its callbacks.  The database is always "/home/web_user" and the file
    is always [fileName()] of the object that makes the request. *)
Inductive Request :=
| idb_async_exists (userData : N)
| idb_async_load (userData : N)
| idb_async_store (data : string) (userData : N)
| idb_async_delete (userData : N).

(** What leaves the program: the requests, the calls into the embedded
    [QConfFileSettingsPrivate], and the writes of the local file. *)
Inductive Call :=
| async (r : Request)
| conf_initAccess (this : N)
| conf_clear (this : N)
| conf_sync (this : N)
| dir_mkpath (settings : N)
| file_write (settings : N) (data : string).

(** The state of the program: the two statics of lines 239-240, the
    allocated objects, the requests in flight and the calls made so far. *)
Record Program := mkProgram {
  isReadReady : bool;
  liveSettings : list N;
  objects : gmap N Object;
  pending : list Request;
  calls : list Call }.

Definition initial : Program := mkProgram false [] ∅ [] [].

Definition emit (c : Call) (w : Program) : Program :=
  mkProgram (isReadReady w) (liveSettings w) (objects w) (pending w)
            (calls w ++ [c]).

Definition request (r : Request) (w : Program) : Program :=
  mkProgram (isReadReady w) (liveSettings w) (objects w) (pending w ++ [r])
            (calls w ++ [async r]).

(** [this->setStatus(s)]: a write through [this]. *)
Definition setStatus_at (w : Program) (this : N) (s : Status)
  : option Program :=
  o ← objects w !! this;
  Some (mkProgram (isReadReady w) (liveSettings w)
          (<[this := mkObject (setStatus (base o) s) (databaseName o) (id o)]>
             (objects w))
          (pending w) (calls w)).

(** Lines 306-311: the static [get(void *userData)]; [None] is
    [nullptr]. *)
Definition get (w : Program) (userData : N) : option N :=
  if bool_decide (userData ∈ liveSettings w) then Some userData else None.

(** Lines 398-403. *)
Definition setReady (w : Program) (this : N) : option Program :=
  let w1 := mkProgram true (liveSettings w) (objects w) (pending w)
                      (calls w) in
  w2 ← setStatus_at w1 this NoError;
  Some (emit (conf_initAccess this) w2).

(** Lines 389-396. *)
Definition loadLocal (w : Program) (this : N) : option Program :=
  _ ← objects w !! this;
  Some (request (idb_async_load this) w).

(** Lines 242-259.  [dirExists] and [opened] are the answers of
    [dir.exists()] and [file.open(QFile::WriteOnly)]. *)
Definition onLoad (w : Program) (userData : N) (data : string)
    (dirExists opened : bool) : option Program :=
  match get w userData with
  | None => Some w
  | Some settings =>
      _ ← objects w !! settings;
      let w1 := if dirExists then w else emit (dir_mkpath settings) w in
      if opened
      then setReady (emit (file_write settings data) w1) settings
      else Some w1
  end.

(** Lines 261-265. *)
Definition onError (w : Program) (userData : N) : option Program :=
  match get w userData with
  | Some settings => setStatus_at w settings AccessError
  | None => Some w
  end.

(** Lines 267-271. *)
Definition onStore (w : Program) (userData : N) : option Program :=
  match get w userData with
  | Some settings => setStatus_at w settings NoError
  | None => Some w
  end.

(** Lines 273-281. *)
Definition onCheck (w : Program) (userData : N) (exists_ : bool)
  : option Program :=
  match get w userData with
  | Some settings =>
      if exists_ then loadLocal w settings else setReady w settings
  | None => Some w
  end.

(** Lines 283-299.  The base-class constructor has allocated the object
    at [this] and left [base0] in its base part. *)
Definition ctor (w : Program) (this : N) (base0 : QSettingsPrivate)
    (scope : Scope) (organization application : string) : Program :=
  request (idb_async_exists this)
    (mkProgram (isReadReady w) (liveSettings w ++ [this])
       (<[this := mkObject (setStatus base0 AccessError)
                    organization application]> (objects w))
       (pending w) (calls w)).

(** Lines 301-304: [liveSettings.removeAll(this)], after which the object
    is gone. *)
Definition dtor (w : Program) (this : N) : Program :=
  mkProgram (isReadReady w)
    (filter (fun p => p ≠ this) (liveSettings w))
    (delete this (objects w)) (pending w) (calls w).

(** Lines 313-317. *)
Definition initAccess (w : Program) (this : N) : Program :=
  if isReadReady w then emit (conf_initAccess this) w else w.

(** Lines 319-325.  [conf] is what [QConfFileSettingsPrivate::get(key)]
    answers. *)
Definition get_value {QVariant : Type} (w : Program) (this : N)
    (key : string) (conf : option QVariant) : option QVariant :=
  if isReadReady w then conf else None.

(** Lines 327-330. *)
Definition children (w : Program) (this : N) (conf : list string)
  : list string := conf.

(** Lines 332-340. *)
Definition clear (w : Program) (this : N) : Program :=
  request (idb_async_delete this) (emit (conf_clear this) w).

(** Lines 342-358.  [file] is the content of the local file when
    [file.open(QFile::ReadOnly)] succeeds. *)
Definition sync (w : Program) (this : N) (file : option string) : Program :=
  let w1 := emit (conf_sync this) w in
  match file with
  | Some dataPointer => request (idb_async_store dataPointer this) w1
  | None => w1
  end.

(** Lines 360-363. *)
Definition flush (w : Program) (this : N) (file : option string) : Program :=
  sync w this file.

(** Lines 365-368.  [conf] is what
    [QConfFileSettingsPrivate::isWritable()] answers. *)
Definition isWritable (w : Program) (this : N) (conf : bool) : bool :=
  isReadReady w && conf.

(** *** The program in its environment

    The application constructs and destroys objects and calls their
    members; the browser completes a request in flight, in any order,
    with success or with an error. *)
Inductive Reply :=
| reply_exists (exists_ : bool)
| reply_loaded (data : string) (dirExists opened : bool)
| reply_stored
| reply_error.

Inductive Event :=
| ev_new (this : N) (base0 : QSettingsPrivate) (scope : Scope)
         (organization application : string)
| ev_delete (this : N)
| ev_clear (this : N)
| ev_sync (this : N) (file : option string)
| ev_flush (this : N) (file : option string)
| ev_initAccess (this : N)
| ev_complete (i : nat) (r : Reply).

(** The callback a reply runs, as registered with the request: lines
    294-298, 335-339, 350-356 and 391-395.  [None] when the reply is not
    one the request can get. *)
Definition callback (w : Program) (r : Request) (reply : Reply)
  : option (option Program) :=
  match r, reply with
  | idb_async_exists u, reply_exists e => Some (onCheck w u e)
  | idb_async_load u, reply_loaded d de op => Some (onLoad w u d de op)
  | idb_async_store _ u, reply_stored => Some (onStore w u)
  | idb_async_delete u, reply_stored => Some (onStore w u)
  | idb_async_exists u, reply_error => Some (onError w u)
  | idb_async_load u, reply_error => Some (onError w u)
  | idb_async_store _ u, reply_error => Some (onError w u)
  | idb_async_delete u, reply_error => Some (onError w u)
  | _, _ => None
  end.

(** The replies a request can get. *)
Definition fits (r : Request) (reply : Reply) : bool :=
  match r, reply with
  | idb_async_exists _, reply_exists _ => true
  | idb_async_load _, reply_loaded _ _ _ => true
  | idb_async_store _ _, reply_stored => true
  | idb_async_delete _, reply_stored => true
  | _, reply_error => true
  | _, _ => false
  end.

Inductive Outcome :=
| Done (w : Program)
| Crashed
| Refused.

Definition userData_of (r : Request) : N :=
  match r with
  | idb_async_exists u | idb_async_load u | idb_async_store _ u
  | idb_async_delete u => u
  end.

(** The request [i] leaves the requests in flight when it completes. *)
Definition answered (w : Program) (i : nat) : Program :=
  mkProgram (isReadReady w) (liveSettings w) (objects w)
            (delete i (pending w)) (calls w).

Definition on_object (w : Program) (this : N) (w' : Program) : Outcome :=
  match objects w !! this with
  | Some _ => Done w'
  | None => Refused
  end.

(** One event.  [Refused]: the event cannot happen in [w] (a member call
    on an address that holds no object, a constructor on an address that
    holds one, a reply to no request).  [Crashed]: a callback went through
    a pointer to no object. *)
Definition step (w : Program) (e : Event) : Outcome :=
  match e with
  | ev_new this base0 scope organization application =>
      match objects w !! this with
      | None => Done (ctor w this base0 scope organization application)
      | Some _ => Refused
      end
  | ev_delete this => on_object w this (dtor w this)
  | ev_clear this => on_object w this (clear w this)
  | ev_sync this file => on_object w this (sync w this file)
  | ev_flush this file => on_object w this (flush w this file)
  | ev_initAccess this => on_object w this (initAccess w this)
  | ev_complete i reply =>
      match pending w !! i with
      | None => Refused
      | Some r =>
          match callback (answered w i) r reply with
          | None => Refused
          | Some None => Crashed
          | Some (Some w') => Done w'
          end
      end
  end.

Fixpoint run (w : Program) (es : list Event) : Outcome :=
  match es with
  | [] => Done w
  | e :: es' =>
      match step w e with
      | Done w' => run w' es'
      | o => o
      end
  end.

(** The state a run ends in, when it ends in one. *)
Definition final (o : Outcome) : option Program :=
  match o with
  | Done w => Some w
  | Crashed | Refused => None
  end.

(** The invariant of the registry: every pointer in [liveSettings] points
    to an object. *)
Definition live_allocated (w : Program) : Prop :=
  ∀ p, p ∈ liveSettings w → is_Some (objects w !! p).

(** The registry is exact: it lists the addresses that hold an object,
    each once. *)
Definition registry_exact (w : Program) : Prop :=
  NoDup (liveSettings w)
  ∧ ∀ p, p ∈ liveSettings w ↔ is_Some (objects w !! p).

(** What a callback may change: never the registry, never which addresses
    hold an object, and the flag only from false to true. *)
Definition keeps (w w' : Program) : Prop :=
  liveSettings w' = liveSettings w
  ∧ (∀ p, is_Some (objects w' !! p) ↔ is_Some (objects w !! p))
  ∧ (isReadReady w = true → isReadReady w' = true).

(** The status of the object at [this], if there is one. *)
Definition status_of (w : Program) (this : N) : option Status :=
  (fun o => status (base o)) <$> objects w !! this.

(** The event is a construction at the address [this]. *)
Definition constructs (this : N) (e : Event) : bool :=
  match e with
  | ev_new p _ _ _ _ => bool_decide (p = this)
  | _ => false
  end.

End IDB.

(** ** The factory *)

(** What [QSettingsPrivate::create] returns: the object it constructs, by
    its constructor and arguments, [nullptr], or nothing when control
    leaves the switch without a [return]. *)
Inductive Created :=
| new_QWasmLocalStorageSettingsPrivate (scope : Scope)
    (organization application : string)
| new_QWasmIDBSettingsPrivate (scope : Scope)
    (organization application : string)
| new_QConfFileSettingsPrivate (format : Z) (scope : Scope)
    (organization application : string)
| null
| no_return.

Section Create.

(** The values of [QSettings::Format], from qsettings.h: [NativeFormat],
    [IniFormat], [InvalidFormat] and the sixteen [CustomFormat]s. *)
Variables NativeFormat IniFormat InvalidFormat : Z.
Variable CustomFormats : list Z.

(** [cookiesWarningMessage.arg(name)]. *)
Definition cookiesWarningMessage (name : string) : string :=
  "QSettings::" +:+ name
    +:+ " requires cookies, falling back to IniFormat with temporary file".

(** Lines 405-458.  [cookiesEnabled] is [navigator.cookieEnabled]; the
    result has the warnings printed and what is returned. *)
Definition create (cookiesEnabled : bool) (format : Z) (scope : Scope)
    (organization application : string) : list string * Created :=
  let WebLocalStorageFormat := (IniFormat + 1)%Z in
  let WebIdbFormat := (IniFormat + 2)%Z in
  let format :=
    if bool_decide (format = NativeFormat) then WebLocalStorageFormat
    else format in
  let '(warnings, format) :=
    if bool_decide (format = WebLocalStorageFormat) && negb cookiesEnabled
    then ([cookiesWarningMessage "WebLocalStorageFormat"], IniFormat)
    else if bool_decide (format = WebIdbFormat) && negb cookiesEnabled
    then ([cookiesWarningMessage "WebIdbFormat"], IniFormat)
    else ([], format) in
  if bool_decide (format = WebLocalStorageFormat) then
    (warnings,
     new_QWasmLocalStorageSettingsPrivate scope organization application)
  else if bool_decide (format = WebIdbFormat) then
    (warnings, new_QWasmIDBSettingsPrivate scope organization application)
  else if bool_decide (format = IniFormat ∨ format ∈ CustomFormats) then
    (warnings,
     new_QConfFileSettingsPrivate format scope organization application)
  else if bool_decide (format = InvalidFormat) then (warnings, null)
  else (warnings, no_return).

End Create.

(** * Properties *)

(** ** Strings *)

Lemma append_cons (c : ascii) (a b : string) :
  String c a +:+ b = String c (a +:+ b).
Proof. reflexivity. Qed.

Lemma append_assoc (a b c : string) : (a +:+ b) +:+ c = a +:+ (b +:+ c).
Proof.
  induction a as [|x a IH]; [done|].
  rewrite !append_cons. by f_equal.
Qed.

Lemma append_empty_r (a : string) : a +:+ "" = a.
Proof.
  induction a as [|x a IH]; [done|].
  rewrite append_cons. by f_equal.
Qed.

Lemma length_zero_empty (s : string) :
  Nat.eqb (String.length s) 0 = true ↔ s = "".
Proof. destruct s; simpl; split; intros H; done. Qed.

Lemma length_nonzero (s : string) :
  Nat.eqb (String.length s) 0 = false ↔ s ≠ "".
Proof. destruct s; simpl; split; intros H; done. Qed.

Lemma startsWith_append (p r : string) : startsWith (p +:+ r) p = true.
Proof.
  induction p as [|c p IH]; [done|].
  rewrite append_cons. simpl. by rewrite Ascii.eqb_refl.
Qed.

Lemma sliced_append (p r : string) : sliced (p +:+ r) (String.length p) = r.
Proof.
  induction p as [|c p IH]; [done|].
  rewrite append_cons. simpl. done.
Qed.

Lemma startsWith_sliced (s p : string) :
  startsWith s p = true → s = p +:+ sliced s (String.length p).
Proof.
  revert s. induction p as [|c p IH]; intros s H; [done|].
  simpl in H. destruct s as [|d s]; [done|].
  destruct (Ascii.eqb_spec c d) as [->|]; [|done].
  rewrite append_cons. simpl. f_equal. by apply IH.
Qed.

Lemma startsWith_true (s p : string) :
  startsWith s p = true ↔ ∃ r, s = p +:+ r.
Proof.
  split.
  - intros H. eexists. by apply startsWith_sliced.
  - intros [r ->]. apply startsWith_append.
Qed.

Lemma startsWith_false (s p : string) :
  startsWith s p = false ↔ ¬ ∃ r, s = p +:+ r.
Proof.
  rewrite <- startsWith_true. by destruct (startsWith s p).
Qed.

Lemma startsWith_cancel (a s p : string) :
  startsWith (a +:+ s) (a +:+ p) = startsWith s p.
Proof.
  induction a as [|c a IH]; [done|].
  rewrite !append_cons. simpl. by rewrite Ascii.eqb_refl.
Qed.

Lemma startsWith_trans (s p q : string) :
  startsWith s p = true → startsWith p q = true → startsWith s q = true.
Proof.
  rewrite !startsWith_true. intros [r ->] [r' ->].
  exists (r' +:+ r). apply append_assoc.
Qed.

(** What the string view of [keyNameFromPrefixedStorageName] says to the
    two tests the file applies to it. *)
Lemma keyName_match (p r : string) :
  keyNameFromPrefixedStorageName (viewOf p) (viewOf (p +:+ r)) = viewOf r.
Proof.
  unfold keyNameFromPrefixedStorageName, view_sliced. simpl.
  by rewrite startsWith_append, sliced_append.
Qed.

Lemma keyName_no_match (p s : string) :
  startsWith s p = false →
  keyNameFromPrefixedStorageName (viewOf p) (viewOf s) = QStringView_null.
Proof.
  intros H. unfold keyNameFromPrefixedStorageName. simpl. by rewrite H.
Qed.

Lemma keyName_isEmpty (p s : string) :
  isEmpty (keyNameFromPrefixedStorageName (viewOf p) (viewOf s)) = true
  ↔ startsWith s p = false ∨ s = p.
Proof.
  destruct (startsWith s p) eqn:Hs.
  - apply startsWith_true in Hs as [r ->]. rewrite keyName_match.
    unfold isEmpty. simpl. rewrite length_zero_empty. split.
    + intros ->. right. apply append_empty_r.
    + intros [?|H]; [done|].
      rewrite <- (append_empty_r p) in H at 2.
      by apply (inj (String.app p)) in H.
  - rewrite keyName_no_match by done. unfold isEmpty. simpl. naive_solver.
Qed.

(** C8.  [keyNameFromPrefixedStorageName] returns the rest of the stored
    name after the prefix when the stored name starts with the prefix, the
    empty rest when the two are equal, and the null view exactly when the
    stored name does not start with the prefix; the null view is not the
    view of an empty rest. *)
Theorem keyName_strips_prefix :
  (∀ p r : string,
     keyNameFromPrefixedStorageName (viewOf p) (viewOf (p +:+ r)) = viewOf r)
  ∧ (∀ p : string,
       keyNameFromPrefixedStorageName (viewOf p) (viewOf p) = viewOf "")
  ∧ (∀ p s : string,
       keyNameFromPrefixedStorageName (viewOf p) (viewOf s) = QStringView_null
       ↔ ¬ ∃ r, s = p +:+ r)
  ∧ (∀ p s : string,
       isNull (keyNameFromPrefixedStorageName (viewOf p) (viewOf s))
       = negb (startsWith s p))
  ∧ QStringView_null ≠ viewOf "".
Proof.
  split_and!.
  - apply keyName_match.
  - intros p. rewrite <- (append_empty_r p) at 2. apply keyName_match.
  - intros p s. rewrite <- startsWith_false. split.
    + intros H. destruct (startsWith s p) eqn:Hs; [|done].
      apply startsWith_true in Hs as [r ->].
      by rewrite keyName_match in H.
    + apply keyName_no_match.
  - intros p s. unfold keyNameFromPrefixedStorageName. simpl.
    by destruct (startsWith s p).
  - done.
Qed.

(** ** The localStorage back end *)

(** [key(0)], ..., [key(length - 1)] are the keys of the stored entries. *)
Lemma storedKeys_elem (st : gmap string string) (k : string) :
  k ∈ LocalStorage.storedKeys st ↔ is_Some (st !! k).
Proof.
  unfold LocalStorage.storedKeys, LocalStorage.key, LocalStorage.length.
  rewrite list_elem_of_omap. split.
  - intros (i & _ & Hi). apply list_elem_of_lookup_2 in Hi.
    apply list_elem_of_fmap_1 in Hi as ([k' v] & -> & Hkv).
    apply elem_of_map_to_list in Hkv. by exists v.
  - intros [v Hv]. apply elem_of_map_to_list in Hv.
    apply (list_elem_of_fmap_2 fst) in Hv.
    apply list_elem_of_lookup_1 in Hv as [i Hi]. exists i. split; [|done].
    apply elem_of_seq. apply lookup_lt_Some in Hi.
    rewrite length_fmap, length_map_to_list in Hi. lia.
Qed.

(** The second pass: removing a list of keys. *)
Lemma removeItems_lookup (l : list string) (st : gmap string string)
    (k : string) :
  foldl (fun st child => LocalStorage.removeItem child st) st l !! k
  = if decide (k ∈ l) then None else st !! k.
Proof.
  revert st. induction l as [|c l IH]; intros st.
  - rewrite decide_False; [done | apply not_elem_of_nil].
  - cbn [foldl]. rewrite IH. unfold LocalStorage.removeItem.
    destruct (decide (k ∈ l)) as [Hl|Hl].
    + rewrite decide_True; [done | by right].
    + destruct (decide (k = c)) as [->|Hne].
      * rewrite decide_True; [|by left]. apply lookup_delete_eq.
      * rewrite decide_False; [by apply lookup_delete_ne|].
        rewrite elem_of_cons. by intros [?|?].
Qed.

(** The first pass of [remove] keeps the stored keys that pass the test, in
    the order met, behind [removed]. *)
Lemma collect_filter (skip : string → bool) (acc l : list string) :
  foldl (fun children s => if skip s then children else children ++ [s]) acc l
  = acc ++ filter (fun s => skip s = false) l.
Proof.
  revert acc. induction l as [|s l IH]; intros acc.
  - cbn [foldl]. by rewrite filter_nil, app_nil_r.
  - cbn [foldl]. rewrite IH, filter_cons. destruct (skip s).
    + by rewrite decide_False.
    + rewrite decide_True by done. by rewrite <- app_assoc.
Qed.

(** The test of the first pass, on the stored name: it has more than the
    prefix, and what follows the prefix starts with [key]. *)
Lemma remove_test (first key s : string) :
  (isEmpty (keyNameFromPrefixedStorageName (viewOf first) (viewOf s))
   || negb (view_startsWith
              (keyNameFromPrefixedStorageName (viewOf first) (viewOf s)) key))
  = false
  ↔ s ≠ first ∧ startsWith s (first +:+ key) = true.
Proof.
  rewrite orb_false_iff, negb_false_iff.
  destruct (startsWith s first) eqn:Hs.
  - apply startsWith_true in Hs as [r ->]. rewrite keyName_match.
    unfold isEmpty, view_startsWith. simpl.
    rewrite length_nonzero, startsWith_cancel.
    split; intros [H1 H2]; split; try done.
    + intros H. apply H1. rewrite <- (append_empty_r first) in H at 2.
      by apply (inj (String.app first)) in H.
    + intros ->. apply H1. apply append_empty_r.
  - split.
    + intros [H _]. apply not_true_iff_false in H. destruct H.
      apply keyName_isEmpty. by left.
    + intros [_ H]. rewrite <- Hs.
      assert (startsWith (first +:+ key) first = true)
        by apply startsWith_append.
      rewrite (startsWith_trans s (first +:+ key) first) in Hs; done.
Qed.

(** What [remove] leaves: the entries whose physical key does not start
    with the first prefix followed by [key]. *)
Lemma remove_lookup (b : QSettingsPrivate) (first : string)
    (rest : list string) (key : string) (st : gmap string string) :
  ∃ st', LocalStorage.remove (LocalStorage.mk b (first :: rest)) key st
         = Some st'
    ∧ ∀ k, st' !! k
           = if startsWith k (first +:+ key) then None else st !! k.
Proof.
  unfold LocalStorage.remove, LocalStorage.remove_children. simpl.
  eexists. split; [done|]. intros k.
  rewrite removeItems_lookup, collect_filter.
  destruct (startsWith k (first +:+ key)) eqn:Hk.
  - destruct (st !! k) as [v|] eqn:Hv.
    + rewrite decide_True; [done|]. apply elem_of_app.
      destruct (decide (k = first +:+ key)) as [->|Hne];
        [left; by apply list_elem_of_singleton|].
      right. apply list_elem_of_filter. split.
      * apply remove_test. split; [|done]. intros ->.
        apply startsWith_true in Hk as [r Hr].
        rewrite <- (append_empty_r first) in Hr at 1.
        rewrite append_assoc in Hr.
        apply (inj (String.app first)) in Hr.
        destruct key; [|done]. apply Hne. by rewrite append_empty_r.
      * apply storedKeys_elem. by exists v.
    + by case_decide.
  - rewrite decide_False; [done|].
    rewrite elem_of_app, list_elem_of_singleton, list_elem_of_filter,
      remove_test.
    intros [->|[[_ H] _]]; [|congruence].
    rewrite (proj2 (startsWith_true _ _)) in Hk; [done|].
    exists "". by rewrite append_empty_r.
Qed.

(** With a first prefix, the loop of [clear] removes the stored keys whose
    stripped name is not empty. *)
Lemma clear_fold (b : QSettingsPrivate) (first : string) (rest : list string)
    (keys : list string) (st : gmap string string) :
  foldl
    (fun acc key =>
       st ← acc;
       first ← head (LocalStorage.m_keyPrefixes
                       (LocalStorage.mk b (first :: rest)));
       if negb (isEmpty (keyNameFromPrefixedStorageName
                           (viewOf first) (viewOf key)))
       then Some (LocalStorage.removeItem key st)
       else Some st)
    (Some st) keys
  = Some (foldl (fun st child => LocalStorage.removeItem child st) st
            (filter
               (fun s => isEmpty (keyNameFromPrefixedStorageName
                                    (viewOf first) (viewOf s)) = false)
               keys)).
Proof.
  revert st. induction keys as [|s keys IH]; intros st; [done|].
  cbn [foldl]. rewrite filter_cons. simpl.
  destruct (isEmpty _) eqn:He; simpl; apply IH.
Qed.

(** What [clear] leaves: the entries whose physical key does not start with
    the first prefix, and the entry whose key is that prefix. *)
Lemma clear_lookup (b : QSettingsPrivate) (first : string)
    (rest : list string) (st : gmap string string) :
  ∃ st', LocalStorage.clear (LocalStorage.mk b (first :: rest)) st = Some st'
    ∧ ∀ k, st' !! k
           = if decide (startsWith k first = true ∧ k ≠ first)
             then None else st !! k.
Proof.
  unfold LocalStorage.clear. rewrite clear_fold. eexists. split; [done|].
  intros k. rewrite removeItems_lookup.
  destruct (decide (startsWith k first = true ∧ k ≠ first)) as [[H1 H2]|H].
  - destruct (st !! k) as [v|] eqn:Hv; [|by case_decide].
    rewrite decide_True; [done|]. apply list_elem_of_filter. split.
    + apply not_true_iff_false. rewrite keyName_isEmpty.
      intros [?|?]; congruence.
    + apply storedKeys_elem. by exists v.
  - rewrite decide_False; [done|]. rewrite list_elem_of_filter.
    intros [He _]. apply H. apply not_true_iff_false in He.
    rewrite keyName_isEmpty in He.
    destruct (startsWith k first); [|naive_solver].
    split; [done|]. naive_solver.
Qed.

(** ** The prefixes the constructor builds *)

Lemma ctor_no_organization (base0 : QSettingsPrivate) (scope : Scope)
    (application : string) :
  LocalStorage.ctor base0 scope "" application
  = LocalStorage.mk (setStatus base0 AccessError) [].
Proof. reflexivity. Qed.

Lemma replace_length_zero (s : string) :
  Nat.eqb (String.length (replace s "-" "--")) 0
  = Nat.eqb (String.length s) 0.
Proof.
  destruct s as [|c s]; [done|]. simpl.
  destruct (Ascii.eqb c "-"); done.
Qed.

Lemma ctor_prefixes (base0 : QSettingsPrivate) (scope : Scope)
    (organization application : string) :
  organization ≠ "" →
  LocalStorage.ctor base0 scope organization application
  = LocalStorage.mk base0
      (let org := replace organization "-" "--" in
       let app := replace application "-" "--" in
       match scope, Nat.eqb (String.length application) 0 with
       | UserScope, false =>
           [ "qt-v0-" +:+ org +:+ "-" +:+ app +:+ "-";
             "qt-v0-" +:+ org +:+ "-all-apps-";
             "qt-v0-" +:+ org +:+ "-" +:+ app +:+ "-sys-tem-";
             "qt-v0-" +:+ org +:+ "-all-apps-sys-tem-" ]
       | UserScope, true =>
           [ "qt-v0-" +:+ org +:+ "-all-apps-";
             "qt-v0-" +:+ org +:+ "-all-apps-sys-tem-" ]
       | SystemScope, false =>
           [ "qt-v0-" +:+ org +:+ "-" +:+ app +:+ "-sys-tem-";
             "qt-v0-" +:+ org +:+ "-all-apps-sys-tem-" ]
       | SystemScope, true =>
           [ "qt-v0-" +:+ org +:+ "-all-apps-sys-tem-" ]
       end).
Proof.
  intros Horg. apply length_nonzero in Horg.
  unfold LocalStorage.ctor. rewrite Horg, replace_length_zero.
  destruct scope, (Nat.eqb (String.length application) 0);
    cbn [negb app]; cbv zeta; f_equal; rewrite !append_assoc; reflexivity.
Qed.

(** ** Reading: [get] *)

Section Get.

Context {QVariant : Type}.
Variable stringToVariant : string → QVariant.

Lemma get_from_fallbacks (prefixes : list string) (key : string)
    (st : gmap string string) :
  LocalStorage.get_from stringToVariant prefixes true key st
  = stringToVariant
      <$> head (omap (fun prefix => LocalStorage.getItem st (prefix +:+ key))
                     prefixes).
Proof.
  induction prefixes as [|p prefixes IH]; [done|].
  cbn [LocalStorage.get_from omap list_omap].
  destruct (LocalStorage.getItem st (p +:+ key)); [done|]. apply IH.
Qed.

Lemma get_from_first_only (prefixes : list string) (key : string)
    (st : gmap string string) :
  LocalStorage.get_from stringToVariant prefixes false key st
  = stringToVariant
      <$> (head prefixes
             ≫= fun prefix => LocalStorage.getItem st (prefix +:+ key)).
Proof.
  destruct prefixes as [|p prefixes]; [done|].
  cbn [LocalStorage.get_from head mbind option_bind].
  by destruct (LocalStorage.getItem st (p +:+ key)).
Qed.

End Get.

(** The first element of [omap f l] comes from the first element of [l] on
    which [f] gives a result. *)
Lemma head_omap_Some {A B : Type} (f : A → option B) (l : list A) (y : B) :
  head (omap f l) = Some y
  ↔ ∃ i x, l !! i = Some x ∧ f x = Some y
           ∧ ∀ j x', j < i → l !! j = Some x' → f x' = None.
Proof.
  induction l as [|a l IH]; cbn [omap list_omap].
  - split; [done|]. by intros (i & x & H & _).
  - destruct (f a) as [b|] eqn:Ha; cbn [head].
    + split.
      * intros [= ->]. exists 0, a. split_and!; [done..|]. intros; lia.
      * intros (i & x & Hi & Hx & Hmin). destruct i as [|i].
        -- by simplify_eq/=.
        -- specialize (Hmin 0 a). rewrite Hmin in Ha; [done|lia|done].
    + rewrite IH. split.
      * intros (i & x & Hi & Hx & Hmin). exists (S i), x.
        split_and!; [done..|]. intros [|j] x' Hj Hl; simplify_eq/=; [done|].
        apply (Hmin j); [lia|done].
      * intros (i & x & Hi & Hx & Hmin). destruct i as [|i].
        -- by simplify_eq/=.
        -- exists i, x. split_and!; [done..|]. intros j x' Hj Hl.
           apply (Hmin (S j)); [lia|done].
Qed.

Lemma head_omap_None {A B : Type} (f : A → option B) (l : list A) :
  head (omap f l) = None ↔ ∀ x, x ∈ l → f x = None.
Proof.
  induction l as [|a l IH]; cbn [omap list_omap].
  - split; [|done]. intros _ x Hx. by apply elem_of_nil in Hx.
  - destruct (f a) as [b|] eqn:Ha; cbn [head].
    + split; [done|]. intros H. rewrite H in Ha; [done|]. by left.
    + rewrite IH. split.
      * intros H x [->|Hx]%elem_of_cons; [done|]. by apply H.
      * intros H x Hx. apply H. by right.
Qed.

(** C5.  [get] consults the prefixes in order, all of them or only the
    first when fallbacks are disabled, and returns the parsed value of the
    first entry stored under a prefix followed by the key; it returns
    nothing exactly when no consulted prefix has an entry. *)
Theorem get_first_hit {QVariant : Type} (stringToVariant : string → QVariant)
    (d : LocalStorage.t) (key : string) (st : gmap string string) :
  LocalStorage.get stringToVariant d key st
  = stringToVariant
      <$> head (omap (fun prefix => LocalStorage.getItem st (prefix +:+ key))
                     (LocalStorage.consulted d))
  ∧ (∀ value,
       head (omap (fun prefix => LocalStorage.getItem st (prefix +:+ key))
                  (LocalStorage.consulted d)) = Some value
       ↔ ∃ i prefix,
           LocalStorage.consulted d !! i = Some prefix
           ∧ LocalStorage.getItem st (prefix +:+ key) = Some value
           ∧ ∀ j earlier, j < i →
               LocalStorage.consulted d !! j = Some earlier →
               LocalStorage.getItem st (earlier +:+ key) = None)
  ∧ (fallbacks (LocalStorage.base d) = false →
     LocalStorage.get stringToVariant d key st
     = stringToVariant
         <$> (head (LocalStorage.m_keyPrefixes d)
                ≫= fun prefix => LocalStorage.getItem st (prefix +:+ key)))
  ∧ (LocalStorage.get stringToVariant d key st = None
     ↔ ∀ prefix, prefix ∈ LocalStorage.consulted d →
                 LocalStorage.getItem st (prefix +:+ key) = None).
Proof.
  assert (LocalStorage.get stringToVariant d key st
          = stringToVariant
              <$> head (omap (fun prefix =>
                                LocalStorage.getItem st (prefix +:+ key))
                             (LocalStorage.consulted d))) as Heq.
  { unfold LocalStorage.get, LocalStorage.consulted.
    destruct (fallbacks (LocalStorage.base d)).
    - apply get_from_fallbacks.
    - rewrite get_from_first_only.
      by destruct (LocalStorage.m_keyPrefixes d) as [|p l];
        [|cbn; destruct (LocalStorage.getItem st (p +:+ key))]. }
  split_and!.
  - exact Heq.
  - intros value. apply head_omap_Some.
  - intros Hf. unfold LocalStorage.get. rewrite Hf.
    apply get_from_first_only.
  - rewrite Heq, fmap_None. apply head_omap_None.
Qed.

(** ** Writing: [set], [remove], [clear] *)

(** The members that write read [m_keyPrefixes] through [first()] only. *)
Lemma writes_use_first_prefix {QVariant : Type}
    (variantToString : QVariant → string)
    (b b' : QSettingsPrivate) (first : string) (rest rest' : list string)
    (o : LocalStorage.Op QVariant) (st : gmap string string) :
  LocalStorage.exec variantToString (LocalStorage.mk b (first :: rest)) o st
  = LocalStorage.exec variantToString (LocalStorage.mk b' (first :: rest')) o st.
Proof. destruct o; reflexivity. Qed.

(** C6, as the constructor has it.  For an organization and an application
    that are not empty, the prefixes are, in user scope, the four
    [org-app-], [org-all-apps-], [org-app-sys-tem-], [org-all-apps-sys-tem-]
    and, in system scope, the two [org-app-sys-tem-], [org-all-apps-sys-tem-],
    each behind "qt-v0-" and with every '-' of the two names doubled; and
    [set], [remove] and [clear] depend on the first prefix only. *)
Theorem prefixes_by_scope (base0 : QSettingsPrivate)
    (organization application : string) :
  organization ≠ "" → application ≠ "" →
  LocalStorage.m_keyPrefixes
    (LocalStorage.ctor base0 UserScope organization application)
  = [ "qt-v0-" +:+ replace organization "-" "--" +:+ "-"
        +:+ replace application "-" "--" +:+ "-";
      "qt-v0-" +:+ replace organization "-" "--" +:+ "-all-apps-";
      "qt-v0-" +:+ replace organization "-" "--" +:+ "-"
        +:+ replace application "-" "--" +:+ "-sys-tem-";
      "qt-v0-" +:+ replace organization "-" "--" +:+ "-all-apps-sys-tem-" ]
  ∧ LocalStorage.m_keyPrefixes
      (LocalStorage.ctor base0 SystemScope organization application)
    = [ "qt-v0-" +:+ replace organization "-" "--" +:+ "-"
          +:+ replace application "-" "--" +:+ "-sys-tem-";
        "qt-v0-" +:+ replace organization "-" "--" +:+ "-all-apps-sys-tem-" ]
  ∧ ∀ (QVariant : Type) (variantToString : QVariant → string)
      (b b' : QSettingsPrivate) (first : string) (rest rest' : list string)
      (o : LocalStorage.Op QVariant) (st : gmap string string),
      LocalStorage.exec variantToString
        (LocalStorage.mk b (first :: rest)) o st
      = LocalStorage.exec variantToString
          (LocalStorage.mk b' (first :: rest')) o st.
Proof.
  intros Horg Happ. apply length_nonzero in Happ.
  rewrite !ctor_prefixes by done. cbn [LocalStorage.m_keyPrefixes].
  cbv zeta. rewrite Happ. split_and!; [done..|].
  intros. apply writes_use_first_prefix.
Qed.

Lemma prefixes_by_scope_witness :
  LocalStorage.m_keyPrefixes
    (LocalStorage.ctor (mkBase NoError true) SystemScope "Ac-me" "Tool")
  = [ "qt-v0-Ac--me-Tool-sys-tem-"; "qt-v0-Ac--me-all-apps-sys-tem-" ].
Proof.
  apply (proj1 (proj2 (prefixes_by_scope (mkBase NoError true)
                         "Ac-me" "Tool" ltac:(done) ltac:(done)))).
Defined.

(** C6, as the claim has it, fails in user scope: the list has the two
    system-scope prefixes behind the two user-scope ones. *)
Lemma prefixes_user_scope_four :
  LocalStorage.m_keyPrefixes
    (LocalStorage.ctor (mkBase NoError true) UserScope "Acme" "Tool")
  = [ "qt-v0-Acme-Tool-"; "qt-v0-Acme-all-apps-";
      "qt-v0-Acme-Tool-sys-tem-"; "qt-v0-Acme-all-apps-sys-tem-" ]
  ∧ LocalStorage.m_keyPrefixes
      (LocalStorage.ctor (mkBase NoError true) UserScope "Acme" "Tool")
    ≠ [ "qt-v0-Acme-Tool-"; "qt-v0-Acme-all-apps-" ].
Proof. split; [reflexivity | discriminate]. Qed.

(** C7.  For an organization that is not empty the prefixes start with the
    most specific prefix that applies, and [get] of a key after [set] of
    that key returns the value written, when the value survives
    [variantToString] and [stringToVariant]. *)
Theorem set_then_get {QVariant : Type}
    (variantToString : QVariant → string)
    (stringToVariant : string → QVariant)
    (base0 : QSettingsPrivate) (scope : Scope)
    (organization application key : string) (value : QVariant)
    (st : gmap string string) :
  organization ≠ "" →
  stringToVariant (variantToString value) = value →
  ∃ rest st',
    LocalStorage.m_keyPrefixes
      (LocalStorage.ctor base0 scope organization application)
    = LocalStorage.mostSpecificPrefix scope organization application :: rest
    ∧ LocalStorage.set variantToString
        (LocalStorage.ctor base0 scope organization application) key value st
      = Some st'
    ∧ LocalStorage.get stringToVariant
        (LocalStorage.ctor base0 scope organization application) key st'
      = Some value.
Proof.
  intros Horg Hround. rewrite ctor_prefixes by done.
  cbn [LocalStorage.m_keyPrefixes]. cbv zeta.
  unfold LocalStorage.mostSpecificPrefix, LocalStorage.set, LocalStorage.get.
  destruct scope, (Nat.eqb (String.length application) 0);
    cbn [LocalStorage.m_keyPrefixes LocalStorage.base head mbind option_bind];
    eexists _, _;
    (split_and!;
     [ f_equal; rewrite ?append_empty_r; reflexivity
     | reflexivity
     | cbn [LocalStorage.get_from]; unfold LocalStorage.getItem,
         LocalStorage.setItem; rewrite lookup_insert_eq; by rewrite Hround ]).
Qed.

Lemma set_then_get_witness :
  ∃ st',
    LocalStorage.set (fun v : string => v)
      (LocalStorage.ctor (mkBase NoError false) UserScope "Acme" "Tool")
      "x" "1" ∅ = Some st'
    ∧ LocalStorage.get (fun s : string => s)
        (LocalStorage.ctor (mkBase NoError false) UserScope "Acme" "Tool")
        "x" st' = Some "1".
Proof.
  destruct (set_then_get (fun v : string => v) (fun s : string => s)
              (mkBase NoError false) UserScope "Acme" "Tool" "x" "1" ∅
              ltac:(done) eq_refl) as (rest & st' & _ & Hset & Hget).
  by exists st'.
Defined.

(** C4 at a store with the entries a, a/b, ab and b: [remove] of "a" takes
    the entry ab with it, which is no child of a. *)
Example remove_takes_string_extensions :
  LocalStorage.remove
    (LocalStorage.ctor (mkBase NoError true) UserScope "Acme" "Tool") "a"
    (list_to_map [ ("qt-v0-Acme-Tool-a", "1"); ("qt-v0-Acme-Tool-a/b", "2");
                   ("qt-v0-Acme-Tool-ab", "3"); ("qt-v0-Acme-Tool-b", "4") ])
  = Some {[ "qt-v0-Acme-Tool-b" := "4" ]}.
Proof. vm_compute. reflexivity. Qed.

(** *** What [remove] and [clear] leave alone *)

(** One more character of an application name against "all-apps-". *)
Ltac next_char a :=
  let c := fresh "c" in
  destruct a as [|c a];
  [ try reflexivity
  | cbn [replace];
    destruct (Ascii.eqb_spec c "-") as [->|?];
    [ try reflexivity
    | rewrite !append_cons; cbn [startsWith];
      match goal with
      | |- (if Ascii.eqb c ?x then _ else _) = _ =>
          destruct (Ascii.eqb_spec c x) as [->|?]; [|reflexivity]
      end ] ].

(** No escaped application name other than "all" is followed by its
    separator at the head of "all-apps-": the '-' of "all-apps" stands
    alone, and an escaped name has its '-' in pairs. *)
Lemma all_apps_not_escaped (application u t : string) :
  application ≠ "all" →
  startsWith ("all-apps-" +:+ t)
    (replace application "-" "--" +:+ "-" +:+ u) = false.
Proof.
  intros Hall. do 4 next_char application; done.
Qed.

Lemma all_apps_system_not_escaped (application t : string) :
  startsWith ("all-apps-sys-tem-" +:+ t)
    (replace application "-" "--" +:+ "-sys-tem-") = false.
Proof.
  destruct (decide (application = "all")) as [->|Hall].
  - reflexivity.
  - by apply (all_apps_not_escaped application "sys-tem-" ("sys-tem-" +:+ t)).
Qed.

Lemma frame_of_first_prefix (b : QSettingsPrivate) (first : string)
    (rest : list string) (key : string) (st : gmap string string) :
  ∃ st_r st_c,
    LocalStorage.remove (LocalStorage.mk b (first :: rest)) key st = Some st_r
    ∧ LocalStorage.clear (LocalStorage.mk b (first :: rest)) st = Some st_c
    ∧ (∀ k, startsWith k first = false →
            st_r !! k = st !! k ∧ st_c !! k = st !! k)
    ∧ st_c !! first = st !! first
    ∧ (key ≠ "" → st_r !! first = st !! first).
Proof.
  destruct (remove_lookup b first rest key st) as (st_r & Hr & Hlr).
  destruct (clear_lookup b first rest st) as (st_c & Hc & Hlc).
  exists st_r, st_c. split_and!; [done..| | |].
  - intros k Hk. rewrite Hlr, Hlc. split.
    + destruct (startsWith k (first +:+ key)) eqn:Hs; [|done].
      rewrite (startsWith_trans k (first +:+ key) first) in Hk;
        [done..|apply startsWith_append].
    + rewrite decide_False; [done|]. intros [? _]. congruence.
  - rewrite Hlc. rewrite decide_False; [done|]. by intros [_ ?].
  - intros Hkey. rewrite Hlr.
    destruct (startsWith first (first +:+ key)) eqn:Hs; [|done].
    apply startsWith_true in Hs as [r Hr'].
    rewrite <- (append_empty_r first) in Hr' at 1.
    rewrite append_assoc in Hr'. apply (inj (String.app first)) in Hr'.
    by destruct key.
Qed.

Lemma scope_prefix_cancel (org x y : string) :
  startsWith ("qt-v0-" +:+ org +:+ "-" +:+ x) ("qt-v0-" +:+ org +:+ "-" +:+ y)
  = startsWith x y.
Proof. by rewrite !startsWith_cancel. Qed.

(** C10, as the code has it.  [remove] and [clear] leave every entry whose
    physical key does not start with the first prefix; [clear] leaves the
    entry whose key is the first prefix, and so does [remove] of a key that
    is not empty.  The entries under a fallback prefix are left in system
    scope, and in user scope when the application is not "all" and the
    fallback prefix is not the first prefix followed by "sys-tem-". *)
Theorem remove_clear_frame (base0 : QSettingsPrivate) (scope : Scope)
    (organization application key : string) (st : gmap string string) :
  organization ≠ "" →
  ∃ first rest st_r st_c,
    LocalStorage.m_keyPrefixes
      (LocalStorage.ctor base0 scope organization application) = first :: rest
    ∧ LocalStorage.remove
        (LocalStorage.ctor base0 scope organization application) key st
      = Some st_r
    ∧ LocalStorage.clear
        (LocalStorage.ctor base0 scope organization application) st
      = Some st_c
    ∧ (∀ k, startsWith k first = false →
            st_r !! k = st !! k ∧ st_c !! k = st !! k)
    ∧ st_c !! first = st !! first
    ∧ (key ≠ "" → st_r !! first = st !! first)
    ∧ (∀ fallback logical,
         fallback ∈ rest →
         scope = SystemScope
         ∨ (application ≠ "all" ∧ fallback ≠ first +:+ "sys-tem-") →
         st_r !! (fallback +:+ logical) = st !! (fallback +:+ logical)
         ∧ st_c !! (fallback +:+ logical) = st !! (fallback +:+ logical)).
Proof.
  intros Horg. rewrite ctor_prefixes by done. cbv zeta.
  set (org := replace organization "-" "--").
  set (app := replace application "-" "--").
  destruct scope, (Nat.eqb (String.length application) 0) eqn:Happ;
    match goal with
    | |- context [LocalStorage.mk base0 (?f :: ?r)] =>
        destruct (frame_of_first_prefix base0 f r key st)
          as (st_r & st_c & Hr & Hc & Hframe & Hfirst & Hkey);
        exists f, r, st_r, st_c
    end;
    (split_and!; [done..|]);
    intros fallback logical Hin Hcase; apply Hframe;
    repeat (apply elem_of_cons in Hin as [->|Hin]);
    try (by apply elem_of_nil in Hin);
    destruct Hcase as [?|[Hall Hsys]]; try done;
    first
      [ by destruct Hsys; rewrite !append_assoc
      | rewrite !append_assoc;
        first
          [ exact (eq_trans (scope_prefix_cancel org _ _)
                     (all_apps_system_not_escaped application logical))
          | exact (eq_trans (scope_prefix_cancel org _ _)
                     (all_apps_not_escaped application "" logical Hall))
          | exact (eq_trans (scope_prefix_cancel org _ _)
                     (all_apps_not_escaped application ""
                        ("sys-tem-" +:+ logical) Hall)) ] ].
Qed.

Lemma remove_clear_frame_witness :
  ∃ st_r st_c,
    LocalStorage.remove
      (LocalStorage.ctor (mkBase NoError true) UserScope "Acme" "Tool") "x"
      {[ "qt-v0-Acme-all-apps-x" := "1" ]} = Some st_r
    ∧ LocalStorage.clear
        (LocalStorage.ctor (mkBase NoError true) UserScope "Acme" "Tool")
        {[ "qt-v0-Acme-all-apps-x" := "1" ]} = Some st_c
    ∧ st_r !! "qt-v0-Acme-all-apps-x" = Some "1"
    ∧ st_c !! "qt-v0-Acme-all-apps-x" = Some "1".
Proof.
  destruct (remove_clear_frame (mkBase NoError true) UserScope "Acme" "Tool"
              "x" {[ "qt-v0-Acme-all-apps-x" := "1" ]} ltac:(done))
    as (first & rest & st_r & st_c & Hp & Hr & Hc & _ & _ & _ & Hfb).
  injection Hp as <- <-.
  destruct (Hfb "qt-v0-Acme-all-apps-" "x") as [H1 H2];
    [ apply list_elem_of_here | right; split; discriminate | ].
  exists st_r, st_c. split_and!; [exact Hr | exact Hc | exact H1 | exact H2].
Defined.

(** C10, as the claim has it, fails: in user scope the prefix
    [org-app-sys-tem-] is a fallback prefix and starts with the first prefix
    [org-app-], so [clear] removes an entry stored under it, and [remove]
    removes it when the key starts "sys-tem-" followed by the entry's key;
    and [remove] of the empty key removes the entry whose key is the first
    prefix. *)
Lemma clear_takes_fallback_entry :
  LocalStorage.m_keyPrefixes
    (LocalStorage.ctor (mkBase NoError true) UserScope "Acme" "Tool") !! 2
  = Some "qt-v0-Acme-Tool-sys-tem-"
  ∧ LocalStorage.clear
      (LocalStorage.ctor (mkBase NoError true) UserScope "Acme" "Tool")
      {[ "qt-v0-Acme-Tool-sys-tem-x" := "1" ]} = Some ∅
  ∧ LocalStorage.remove
      (LocalStorage.ctor (mkBase NoError true) UserScope "Acme" "Tool") "s"
      {[ "qt-v0-Acme-Tool-sys-tem-s" := "1" ]} = Some ∅
  ∧ LocalStorage.remove
      (LocalStorage.ctor (mkBase NoError true) UserScope "Acme" "Tool") ""
      {[ "qt-v0-Acme-Tool-" := "1" ]} = Some ∅.
Proof. split_and!; vm_compute; reflexivity. Qed.

(** ** The IndexedDB back end *)

Section IDBFacts.

Import IDB.

Lemma get_live (w : Program) (u : N) :
  u ∈ liveSettings w → get w u = Some u.
Proof. intros H. unfold get. by rewrite bool_decide_eq_true_2. Qed.

Lemma get_miss (w : Program) (u : N) :
  u ∉ liveSettings w ↔ get w u = None.
Proof. unfold get. case_bool_decide; split; done. Qed.

Lemma dtor_not_live (w : Program) (this : N) :
  this ∉ liveSettings (dtor w this).
Proof. simpl. rewrite list_elem_of_filter. by intros [? _]. Qed.

Lemma keeps_refl (w : Program) : keeps w w.
Proof. done. Qed.

Lemma setStatus_at_keeps (w w' : Program) (this : N) (s : Status) :
  setStatus_at w this s = Some w' → keeps w w'.
Proof.
  unfold setStatus_at. intros H.
  destruct (objects w !! this) as [o|] eqn:Ho; simplify_eq/=.
  split_and!; [done| |done]. intros p. simpl.
  destruct (decide (p = this)) as [->|Hne].
  - rewrite lookup_insert_eq, Ho. split; eauto.
  - by rewrite lookup_insert_ne.
Qed.

Lemma setReady_keeps (w w' : Program) (this : N) :
  setReady w this = Some w' → keeps w w' ∧ isReadReady w' = true.
Proof.
  unfold setReady. intros H.
  destruct (setStatus_at _ this NoError) as [w2|] eqn:H2; simplify_eq/=.
  apply setStatus_at_keeps in H2 as (Hl & Ho & Hr). simpl in *.
  split; [|by apply Hr]. split_and!; [done..|]. intros _. by apply Hr.
Qed.

Lemma callback_keeps (w w' : Program) (r : Request) (reply : Reply) :
  callback w r reply = Some (Some w') → keeps w w'.
Proof.
  destruct r, reply; simpl; intros H; simplify_eq;
    unfold onCheck, onLoad, onStore, onError, loadLocal in *;
    repeat case_match; simplify_option_eq;
    try apply keeps_refl;
    try (by split_and!);
    try (by eapply setStatus_at_keeps);
    try (by eapply setReady_keeps).
  all: try (match goal with
            | H : setReady _ _ = Some _ |- _ =>
                apply setReady_keeps in H as [(? & ? & ?) _]
            end; split_and!; simpl in *; done).
Qed.

Lemma setStatus_at_allocated (w : Program) (this : N) (s : Status) :
  is_Some (objects w !! this) → is_Some (setStatus_at w this s).
Proof. intros [o Ho]. unfold setStatus_at. rewrite Ho. by eexists. Qed.

Lemma setReady_allocated (w : Program) (this : N) :
  is_Some (objects w !! this) → is_Some (setReady w this).
Proof.
  intros [o Ho]. unfold setReady, setStatus_at. simpl. rewrite Ho.
  by eexists.
Qed.

(** The registry does its work: a callback that finds its pointer in
    [liveSettings] finds an object behind it. *)
Lemma onError_total (w : Program) (u : N) :
  live_allocated w → is_Some (onError w u).
Proof.
  intros Hw. unfold onError, get. case_bool_decide; [|by eexists].
  by apply setStatus_at_allocated, Hw.
Qed.

Lemma onStore_total (w : Program) (u : N) :
  live_allocated w → is_Some (onStore w u).
Proof.
  intros Hw. unfold onStore, get. case_bool_decide; [|by eexists].
  by apply setStatus_at_allocated, Hw.
Qed.

Lemma onCheck_total (w : Program) (u : N) (exists_ : bool) :
  live_allocated w → is_Some (onCheck w u exists_).
Proof.
  intros Hw. unfold onCheck, get. case_bool_decide as Hu; [|by eexists].
  destruct exists_.
  - unfold loadLocal. destruct (Hw u Hu) as [o ->]. by eexists.
  - by apply setReady_allocated, Hw.
Qed.

Lemma onLoad_total (w : Program) (u : N) (data : string)
    (dirExists opened : bool) :
  live_allocated w → is_Some (onLoad w u data dirExists opened).
Proof.
  intros Hw. unfold onLoad, get. case_bool_decide as Hu; [|by eexists].
  destruct (Hw u Hu) as [o Ho]. rewrite Ho. simpl.
  destruct opened; [|by eexists].
  apply setReady_allocated. by destruct dirExists; simpl; rewrite Ho.
Qed.

Lemma callback_safe (w : Program) (r : Request) (reply : Reply) :
  live_allocated w → callback w r reply ≠ Some None.
Proof.
  intros Hw. destruct r as [u|u|d u|u], reply; simpl; try done;
    intros [= Hnone];
    first
      [ destruct (onCheck_total w u exists_ Hw) as [? ?]; congruence
      | destruct (onLoad_total w u data dirExists opened Hw) as [? ?];
        congruence
      | destruct (onStore_total w u Hw) as [? ?]; congruence
      | destruct (onError_total w u Hw) as [? ?]; congruence ].
Qed.

Lemma step_live_allocated (w w' : Program) (e : Event) :
  live_allocated w → step w e = Done w' → live_allocated w'.
Proof.
  intros Hw. destruct e; simpl; unfold on_object;
    repeat case_match; intros Hstep; simplify_eq; try done.
  - intros p. simpl. rewrite elem_of_app, list_elem_of_singleton.
    intros [Hp| ->].
    + destruct (decide (p = this)) as [->|Hne].
      * rewrite lookup_insert_eq. by eexists.
      * rewrite lookup_insert_ne by done. by apply Hw.
    + rewrite lookup_insert_eq. by eexists.
  - intros p. simpl. rewrite list_elem_of_filter. intros [Hne Hp].
    rewrite lookup_delete_ne by done. by apply Hw.
  - unfold sync. by case_match.
  - unfold flush, sync. by case_match.
  - unfold initAccess. by case_match.
  - match goal with
    | H : callback _ _ _ = Some (Some _) |- _ =>
        apply callback_keeps in H as (Hl & Ho & _)
    end.
    intros p. rewrite Hl, Ho. apply Hw.
Qed.

Lemma step_no_crash (w : Program) (e : Event) :
  live_allocated w → step w e ≠ Crashed.
Proof.
  intros Hw. destruct e; simpl; unfold on_object;
    repeat case_match; try done.
  match goal with
  | H : callback _ _ _ = Some None |- _ => by apply callback_safe in H
  end.
Qed.

Lemma step_monotone (w w' : Program) (e : Event) :
  step w e = Done w' → isReadReady w = true → isReadReady w' = true.
Proof.
  destruct e; simpl; unfold on_object;
    repeat case_match; intros Hstep; simplify_eq; try done.
  - unfold sync. by case_match.
  - unfold flush, sync. by case_match.
  - unfold initAccess. by case_match.
  - match goal with
    | H : callback _ _ _ = Some (Some _) |- _ =>
        apply callback_keeps in H as (_ & _ & Hr)
    end.
    done.
Qed.

Lemma run_monotone (w w' : Program) (es : list Event) :
  run w es = Done w' → isReadReady w = true → isReadReady w' = true.
Proof.
  revert w. induction es as [|e es IH]; intros w; simpl.
  - by intros [= ->].
  - destruct (step w e) as [w1| |] eqn:He; [|done..].
    intros Hrun Hw. apply (IH w1); [done|]. by eapply step_monotone.
Qed.

Lemma run_live_allocated (w w' : Program) (es : list Event) :
  live_allocated w → run w es = Done w' → live_allocated w'.
Proof.
  revert w. induction es as [|e es IH]; intros w Hw; simpl.
  - by intros [= <-].
  - destruct (step w e) as [w1| |] eqn:He; [|done..].
    apply IH. by eapply step_live_allocated.
Qed.

Lemma run_no_crash (w : Program) (es : list Event) :
  live_allocated w → run w es ≠ Crashed.
Proof.
  revert w. induction es as [|e es IH]; intros w Hw; simpl; [done|].
  destruct (step w e) as [w1| |] eqn:He;
    [|by destruct (step_no_crash w e Hw)|done].
  apply IH. by eapply step_live_allocated.
Qed.

Lemma initial_live_allocated : live_allocated initial.
Proof. intros p Hp. by apply elem_of_nil in Hp. Qed.

End IDBFacts.

Section IDBClaims.

Import IDB.

Lemma callback_miss (w : Program) (r : Request) (reply : Reply) :
  userData_of r ∉ liveSettings w →
  callback w r reply = if fits r reply then Some (Some w) else None.
Proof.
  intros Hu%get_miss.
  destruct r, reply; simpl in *;
    unfold onCheck, onLoad, onStore, onError; by rewrite ?Hu.
Qed.

(** A pointer that is not in [liveSettings] stays out of it until an
    object is constructed at its address. *)
Lemma step_not_live (w w' : Program) (e : Event) (this : N) :
  this ∉ liveSettings w → constructs this e = false →
  step w e = Done w' → this ∉ liveSettings w'.
Proof.
  intros Hthis Hnew.
  destruct e as [p b sc org app|p|p|p f|p f|p|i reply];
    simpl; unfold on_object; repeat case_match;
    intros Hstep; simplify_eq; try done.
  - simpl in *. rewrite elem_of_app, list_elem_of_singleton.
    intros [?| ->]; [done|]. by rewrite bool_decide_eq_true_2 in Hnew.
  - simpl. rewrite list_elem_of_filter. by intros [_ ?].
  - unfold sync. by case_match.
  - unfold flush, sync. by case_match.
  - unfold initAccess. by case_match.
  - match goal with
    | H : callback _ _ _ = Some (Some _) |- _ =>
        apply callback_keeps in H as (Hl & _ & _)
    end.
    by rewrite Hl.
Qed.

Lemma run_not_live (w w' : Program) (es : list Event) (this : N) :
  this ∉ liveSettings w →
  forallb (fun e => negb (constructs this e)) es = true →
  run w es = Done w' → this ∉ liveSettings w'.
Proof.
  revert w. induction es as [|e es IH]; intros w Hthis; simpl.
  - by intros _ [= <-].
  - intros [He Hes]%andb_prop.
    destruct (step w e) as [w1| |] eqn:Hstep; [|done..].
    apply IH; [|done]. eapply step_not_live; [done| |done].
    by destruct (constructs this e).
Qed.

Lemma run_app (w : Program) (es es' : list Event) :
  run w (es ++ es')
  = match run w es with
    | Done w1 => run w1 es'
    | o => o
    end.
Proof.
  revert w. induction es as [|e es IH]; intros w; simpl; [done|].
  by destruct (step w e).
Qed.

(** C3, at an address that is used again.  An object is constructed at an
    address, destroyed while its existence check is in flight, and a second
    object is constructed at the same address.  The first object's check
    then completes: [get] finds the address in [liveSettings], and
    [onCheck] makes the second object Ready, with status no error and the
    gate open, while the second object's own check is still in flight. *)
Theorem completion_reaches_reused_address :
  final (run initial
           [ ev_new 1 (mkBase NoError true) UserScope "Acme" "Tool";
             ev_delete 1;
             ev_new 1 (mkBase NoError true) UserScope "Acme" "Other" ])
    ≫= (fun w => Some (isReadReady w, liveSettings w, objects w !! 1%N,
                       pending w, calls w))
  = Some (false, [1%N],
          Some (mkObject (mkBase AccessError true) "Acme" "Other"),
          [idb_async_exists 1; idb_async_exists 1],
          [async (idb_async_exists 1); async (idb_async_exists 1)])
  ∧ final (run initial
             [ ev_new 1 (mkBase NoError true) UserScope "Acme" "Tool";
               ev_delete 1;
               ev_new 1 (mkBase NoError true) UserScope "Acme" "Other";
               ev_complete 0 (reply_exists false) ])
      ≫= (fun w => Some (isReadReady w, liveSettings w, objects w !! 1%N,
                         pending w, calls w))
    = Some (true, [1%N],
            Some (mkObject (mkBase NoError true) "Acme" "Other"),
            [idb_async_exists 1],
            [async (idb_async_exists 1); async (idb_async_exists 1);
             conf_initAccess 1]).
Proof. split; vm_compute; reflexivity. Qed.

(** *** The status of an object *)

Lemma setStatus_at_status (w w' : Program) (u p : N) (s : Status) :
  setStatus_at w u s = Some w' →
  status_of w' p = if decide (p = u) then Some s else status_of w p.
Proof.
  unfold setStatus_at, status_of. intros H.
  destruct (objects w !! u) as [o|] eqn:Ho; simplify_eq/=.
  case_decide as Hp.
  - subst. by rewrite lookup_insert_eq.
  - by rewrite lookup_insert_ne.
Qed.

Lemma setReady_status (w w' : Program) (u p : N) :
  setReady w u = Some w' →
  status_of w' p = if decide (p = u) then Some NoError else status_of w p.
Proof.
  unfold setReady. intros H.
  destruct (setStatus_at _ u NoError) as [w2|] eqn:H2; simplify_eq/=.
  apply (setStatus_at_status _ _ _ p) in H2. exact H2.
Qed.

(** A callback writes the status of the object of its request only. *)
Lemma callback_other (w w' : Program) (r : Request) (reply : Reply)
    (p : N) :
  callback w r reply = Some (Some w') → p ≠ userData_of r →
  status_of w' p = status_of w p.
Proof.
  intros Hcb Hp.
  assert (∀ n, get w (userData_of r) = Some n → n = userData_of r) as Hget.
  { intros n. unfold get. case_bool_decide; congruence. }
  destruct r as [u|u|d u|u], reply; simpl in *; simplify_eq;
    unfold onCheck, onLoad, onStore, onError, loadLocal in *;
    destruct (get w u) as [n|] eqn:Hn; simplify_eq; try done;
    specialize (Hget n eq_refl) as ->;
    repeat case_match; simplify_option_eq; try done;
    first
      [ match goal with
        | H : setStatus_at _ _ _ = Some _ |- _ =>
            apply (setStatus_at_status _ _ _ p) in H;
            by rewrite decide_False in H
        end
      | match goal with
        | H : setReady _ _ = Some _ |- _ =>
            apply (setReady_status _ _ _ p) in H;
            by rewrite decide_False in H
        end ].
Qed.

Lemma onError_status (w w' : Program) (u : N) :
  onError w u = Some w' → status_of w u = Some AccessError →
  status_of w' u = Some AccessError.
Proof.
  unfold onError. destruct (get w u) as [n|] eqn:Hn.
  - unfold get in Hn. case_bool_decide; simplify_eq.
    intros Herr _. apply (setStatus_at_status _ _ _ n) in Herr.
    by rewrite decide_True in Herr.
  - by intros [= <-].
Qed.

(** C2, as the code has it.  An error callback leaves the status of its
    live object at the access error, and the status stays there through
    every event that is not the destruction of the object or the completion
    without error of a request that carries the address of the object as
    its [userData]; [onStore] and [setReady] put the status of a live
    object back to no error. *)
Theorem access_error_until_success :
  (∀ (w : Program) (u : N),
     u ∈ liveSettings w → is_Some (objects w !! u) →
     ∃ w', onError w u = Some w' ∧ status_of w' u = Some AccessError)
  ∧ (∀ (w w' : Program) (e : Event) (this : N),
       step w e = Done w' →
       status_of w this = Some AccessError →
       e ≠ ev_delete this →
       (∀ i reply r, e = ev_complete i reply → pending w !! i = Some r →
                     userData_of r = this → reply = reply_error) →
       status_of w' this = Some AccessError)
  ∧ (∀ (w : Program) (u : N),
       u ∈ liveSettings w → is_Some (objects w !! u) →
       ∃ w', onStore w u = Some w' ∧ status_of w' u = Some NoError)
  ∧ (∀ (w : Program) (u : N),
       is_Some (objects w !! u) →
       ∃ w', setReady w u = Some w' ∧ status_of w' u = Some NoError).
Proof.
  split_and!.
  - intros w u Hu Ho. unfold onError. rewrite get_live by done.
    destruct (setStatus_at_allocated w u AccessError Ho) as [w' Hw'].
    exists w'. split; [done|].
    apply (setStatus_at_status _ _ _ u) in Hw'.
    by rewrite decide_True in Hw'.
  - intros w w' e this Hstep Hst Hdel Hrep.
    assert (is_Some (objects w !! this)) as [o Ho].
    { unfold status_of in Hst. by destruct (objects w !! this); eauto. }
    destruct e as [p b sc org app|p|p|p f|p f|p|i reply];
      simpl in Hstep; unfold on_object in Hstep.
    + destruct (objects w !! p) eqn:Hp; simplify_eq.
      unfold status_of in *. simpl.
      rewrite lookup_insert_ne; [done|]. congruence.
    + destruct (objects w !! p) eqn:Hp; simplify_eq.
      unfold status_of in *. simpl.
      rewrite lookup_delete_ne; [done|]. congruence.
    + by destruct (objects w !! p); simplify_eq.
    + destruct (objects w !! p); simplify_eq.
      unfold sync. by destruct f.
    + destruct (objects w !! p); simplify_eq.
      unfold flush, sync. by destruct f.
    + destruct (objects w !! p); simplify_eq.
      unfold initAccess. by destruct (isReadReady w).
    + destruct (pending w !! i) as [r|] eqn:Hi; [|done].
      destruct (callback (answered w i) r reply) as [[w1|]|] eqn:Hcb;
        simplify_eq.
      destruct (decide (userData_of r = this)) as [Hr|Hr].
      * rewrite (Hrep i reply r eq_refl Hi Hr) in Hcb.
        subst this.
        assert (onError (answered w i) (userData_of r) = Some w')
          as Herr by (destruct r; simpl in *; congruence).
        by apply onError_status in Herr.
      * rewrite (callback_other _ _ _ _ this Hcb); [done|congruence].
  - intros w u Hu Ho. unfold onStore. rewrite get_live by done.
    destruct (setStatus_at_allocated w u NoError Ho) as [w' Hw'].
    exists w'. split; [done|].
    apply (setStatus_at_status _ _ _ u) in Hw'.
    by rewrite decide_True in Hw'.
  - intros w u Ho.
    destruct (setReady_allocated w u Ho) as [w' Hw'].
    exists w'. split; [done|].
    apply (setReady_status _ _ _ u) in Hw'.
    by rewrite decide_True in Hw'.
Qed.

Lemma access_error_until_success_witness :
  final (run initial
           [ ev_new 1 (mkBase NoError true) UserScope "Acme" "Tool";
             ev_complete 0 reply_error;
             ev_sync 1 (Some "[General]") ])
    ≫= (fun w => status_of w 1)
  = Some AccessError.
Proof.
  change (final (run initial
                   [ ev_new 1 (mkBase NoError true) UserScope "Acme" "Tool";
                     ev_complete 0 reply_error;
                     ev_sync 1 (Some "[General]") ]))
    with (final (step (mkProgram false [1%N]
                         {[ 1%N := mkObject (mkBase AccessError true)
                                     "Acme" "Tool" ]}
                         [] [async (idb_async_exists 1)])
                   (ev_sync 1 (Some "[General]")))).
  destruct (step _ (ev_sync 1 (Some "[General]"))) as [w'| |] eqn:Hstep;
    [|discriminate Hstep..].
  apply (proj1 (proj2 access_error_until_success) _ w'
           (ev_sync 1 (Some "[General]")) 1%N Hstep);
    [reflexivity | discriminate | discriminate].
Defined.

(** C2, as the claim has it, fails: the existence check of an object ends
    in an error, the application calls [sync], the store succeeds, and
    [onStore] sets the status of the same object to no error. *)
Lemma status_recovers_after_error :
  final (run initial
           [ ev_new 1 (mkBase NoError true) UserScope "Acme" "Tool";
             ev_complete 0 reply_error ])
    ≫= (fun w => status_of w 1)
  = Some AccessError
  ∧ final (run initial
             [ ev_new 1 (mkBase NoError true) UserScope "Acme" "Tool";
               ev_complete 0 reply_error;
               ev_sync 1 (Some "[General]");
               ev_complete 0 reply_stored ])
      ≫= (fun w => status_of w 1)
    = Some NoError.
Proof. split; vm_compute; reflexivity. Qed.

(** Why the exception of C2 goes by the address: a request carries
    [this] as its [userData] and nothing else (lines 296, 337, 352 and
    393).  The store of an object destroyed in the meantime completes and
    clears the error of the object constructed at the same address. *)
Lemma leftover_store_clears_error :
  final (run initial
           [ ev_new 1 (mkBase NoError true) UserScope "Acme" "Tool";
             ev_sync 1 (Some "[General]");
             ev_delete 1;
             ev_new 1 (mkBase NoError true) UserScope "Acme" "Other";
             ev_complete 2 reply_error ])
    ≫= (fun w => Some (status_of w 1, pending w))
  = Some (Some AccessError,
          [idb_async_exists 1; idb_async_store "[General]" 1])
  ∧ final (run initial
             [ ev_new 1 (mkBase NoError true) UserScope "Acme" "Tool";
               ev_sync 1 (Some "[General]");
               ev_delete 1;
               ev_new 1 (mkBase NoError true) UserScope "Acme" "Other";
               ev_complete 2 reply_error;
               ev_complete 1 reply_stored ])
      ≫= (fun w => Some (status_of w 1, pending w))
    = Some (Some NoError, [idb_async_exists 1]).
Proof. split; vm_compute; reflexivity. Qed.

(** *** The flag [isReadReady] *)

(** C1, as the code has it.  [isReadReady] is one flag of the program:
    once it is set it stays set through every run, for every object; an
    object constructed after that starts with the access error as its
    status and with the gate open, so that [get] passes the answer of the
    embedded engine on and [isWritable] is the engine's. *)
Theorem gate_shared_and_monotone (w w' : Program) (es : list Event) :
  run w es = Done w' →
  isReadReady w = true →
  isReadReady w' = true
  ∧ ∀ (this : N) (base0 : QSettingsPrivate) (scope : Scope)
      (organization application : string),
      isReadReady (ctor w' this base0 scope organization application) = true
      ∧ status_of (ctor w' this base0 scope organization application) this
        = Some AccessError
      ∧ (∀ (QVariant : Type) (key : string) (conf : option QVariant),
           get_value (ctor w' this base0 scope organization application)
             this key conf = conf)
      ∧ (∀ conf : bool,
           isWritable (ctor w' this base0 scope organization application)
             this conf = conf).
Proof.
  intros Hrun Hw. pose proof (run_monotone _ _ _ Hrun Hw) as Hw'.
  split; [done|]. intros this base0 scope organization application.
  unfold get_value, isWritable, status_of. simpl.
  rewrite Hw', lookup_insert_eq. done.
Qed.

Lemma gate_shared_and_monotone_witness :
  isReadReady
    <$> final (run (mkProgram true [1%N]
                      {[ 1%N := mkObject (mkBase NoError true)
                                  "Acme" "Tool" ]}
                      [] [async (idb_async_exists 1); conf_initAccess 1])
                 [ ev_clear 1; ev_complete 0 reply_error; ev_delete 1 ])
  = Some true.
Proof.
  destruct (run _ [ev_clear 1; ev_complete 0 reply_error; ev_delete 1])
    as [w'| |] eqn:Hrun; [|discriminate Hrun..].
  simpl. f_equal.
  apply (gate_shared_and_monotone _ w' _ Hrun). reflexivity.
Defined.

(** C1, as the claim has it, fails: the first object reaches Ready, and a
    second object, whose own existence check is still in flight, is
    constructed with the gate open. *)
Lemma second_object_starts_ready :
  final (run initial
           [ ev_new 1 (mkBase NoError true) UserScope "Acme" "Tool";
             ev_complete 0 (reply_exists false);
             ev_new 2 (mkBase NoError true) UserScope "Acme" "Other" ])
    ≫= (fun w =>
          Some (pending w, status_of w 2, isReadReady w,
                get_value w 2 "key" (Some "value"), isWritable w 2 true))
  = Some ([idb_async_exists 2], Some AccessError, true, Some "value", true).
Proof. vm_compute. reflexivity. Qed.

End IDBClaims.

(** ** An empty organization *)

(** C9, as the code has it.  With an empty organization the localStorage
    constructor sets the access error and returns before it builds a
    prefix, so that the loop of [get] has nothing to go through and finds
    no value.  The IndexedDB constructor sets the access error too, and
    does so for every organization. *)
Theorem no_organization {QVariant : Type}
    (stringToVariant : string → QVariant)
    (base0 : QSettingsPrivate) (scope : Scope) (application : string) :
  status (LocalStorage.base (LocalStorage.ctor base0 scope "" application))
  = AccessError
  ∧ LocalStorage.m_keyPrefixes (LocalStorage.ctor base0 scope "" application)
    = []
  ∧ (∀ key st,
       LocalStorage.get stringToVariant
         (LocalStorage.ctor base0 scope "" application) key st = None)
  ∧ (∀ w this organization,
       IDB.status_of
         (IDB.ctor w this base0 scope organization application) this
       = Some AccessError).
Proof.
  rewrite ctor_no_organization. split_and!; try done.
  intros w this organization. unfold IDB.status_of. simpl.
  by rewrite lookup_insert_eq.
Qed.

(** C9, as the claim has it, fails for the IndexedDB back end: an object
    constructed with an empty organization becomes Ready when its existence
    check finds no file, its status is then no error, and [sync] sends the
    file to IndexedDB. *)
Lemma idb_stores_without_organization :
  IDB.final
    (IDB.run IDB.initial
       [ IDB.ev_new 1 (mkBase NoError true) UserScope "" "Tool";
         IDB.ev_complete 0 (IDB.reply_exists false);
         IDB.ev_sync 1 (Some "[General]") ])
    ≫= (fun w => Some (IDB.status_of w 1, IDB.pending w))
  = Some (Some NoError, [IDB.idb_async_store "[General]" 1]).
Proof. vm_compute. reflexivity. Qed.

(** ** What the two passes remove, and what no run does *)

(** X1.  [remove] leaves the store without every entry whose physical key
    starts with the first prefix followed by the key, and with every other
    entry as it was. *)
Theorem remove_removes_extensions (b : QSettingsPrivate) (first : string)
    (rest : list string) (key : string) (st : gmap string string) :
  ∃ st', LocalStorage.remove (LocalStorage.mk b (first :: rest)) key st
         = Some st'
    ∧ ∀ k, st' !! k
           = if startsWith k (first +:+ key) then None else st !! k.
Proof. apply remove_lookup. Qed.

(** X2.  [clear] leaves the store without every entry whose physical key
    starts with the first prefix and is longer than it, and with every
    other entry as it was. *)
Theorem clear_removes_longer_keys (b : QSettingsPrivate) (first : string)
    (rest : list string) (st : gmap string string) :
  ∃ st', LocalStorage.clear (LocalStorage.mk b (first :: rest)) st = Some st'
    ∧ ∀ k, st' !! k
           = if decide (startsWith k first = true ∧ k ≠ first)
             then None else st !! k.
Proof. apply clear_lookup. Qed.

(** X3.  No run of the program from its initial state crashes: whatever
    the application constructs, destroys and calls, and in whatever order
    the requests complete, a callback that finds its pointer in
    [liveSettings] finds an object there. *)
Theorem registry_keeps_callbacks_safe (es : list IDB.Event) :
  IDB.run IDB.initial es = IDB.Refused
  ∨ ∃ w, IDB.run IDB.initial es = IDB.Done w ∧ IDB.live_allocated w.
Proof.
  destruct (IDB.run IDB.initial es) as [w| |] eqn:Hrun.
  - right. exists w. split; [done|].
    eapply run_live_allocated; [apply initial_live_allocated | done].
  - by destruct (run_no_crash IDB.initial es initial_live_allocated).
  - by left.
Qed.

(** * More of the localStorage back end *)

(** ** How [set], [remove], [clear] and [get] compose *)

Lemma get_first_prefix_only {QVariant : Type}
    (stringToVariant : string → QVariant) (s : Status) (first : string)
    (rest : list string) (key : string) (st : gmap string string) :
  LocalStorage.get stringToVariant
    (LocalStorage.mk (mkBase s false) (first :: rest)) key st
  = stringToVariant <$> st !! (first +:+ key).
Proof.
  unfold LocalStorage.get. cbn [LocalStorage.m_keyPrefixes LocalStorage.base
    fallbacks]. by rewrite get_from_first_only.
Qed.

(** X4.  After [remove] of a key the entry of the key and of every key
    that extends it (so every child path) is gone from under the first
    prefix, [get] of any of them finds nothing when fallbacks are disabled,
    and a second [remove] of the key changes nothing. *)
Theorem remove_then_get_absent {QVariant : Type}
    (stringToVariant : string → QVariant) (s : Status) (first : string)
    (rest : list string) (key : string) (st : gmap string string) :
  ∃ st',
    LocalStorage.remove
      (LocalStorage.mk (mkBase s false) (first :: rest)) key st = Some st'
    ∧ (∀ suffix, st' !! (first +:+ key +:+ suffix) = None)
    ∧ (∀ suffix,
         LocalStorage.get stringToVariant
           (LocalStorage.mk (mkBase s false) (first :: rest))
           (key +:+ suffix) st' = None)
    ∧ LocalStorage.remove
        (LocalStorage.mk (mkBase s false) (first :: rest)) key st' = Some st'.
Proof.
  destruct (remove_lookup (mkBase s false) first rest key st)
    as (st' & Hr & Hl).
  assert (∀ suffix, st' !! (first +:+ key +:+ suffix) = None) as Hgone.
  { intros suffix. rewrite Hl, <- append_assoc.
    by rewrite startsWith_append. }
  exists st'. split_and!; [done..| |].
  - intros suffix. by rewrite get_first_prefix_only, Hgone.
  - destruct (remove_lookup (mkBase s false) first rest key st')
      as (st'' & Hr' & Hl').
    rewrite Hr'. f_equal. apply map_eq. intros k. rewrite Hl', Hl.
    by destruct (startsWith k (first +:+ key)).
Qed.

(** X5.  After [clear] no entry with a key that is not empty is left under
    the first prefix, [get] of such a key finds nothing when fallbacks are
    disabled, and a second [clear] changes nothing. *)
Theorem clear_then_get_absent {QVariant : Type}
    (stringToVariant : string → QVariant) (s : Status) (first : string)
    (rest : list string) (st : gmap string string) :
  ∃ st',
    LocalStorage.clear
      (LocalStorage.mk (mkBase s false) (first :: rest)) st = Some st'
    ∧ (∀ key, key ≠ "" → st' !! (first +:+ key) = None)
    ∧ (∀ key, key ≠ "" →
         LocalStorage.get stringToVariant
           (LocalStorage.mk (mkBase s false) (first :: rest)) key st' = None)
    ∧ LocalStorage.clear
        (LocalStorage.mk (mkBase s false) (first :: rest)) st' = Some st'.
Proof.
  destruct (clear_lookup (mkBase s false) first rest st) as (st' & Hc & Hl).
  assert (∀ key, key ≠ "" → st' !! (first +:+ key) = None) as Hgone.
  { intros key Hkey. rewrite Hl, decide_True; [done|].
    split; [apply startsWith_append|]. intros H.
    rewrite <- (append_empty_r first) in H at 2.
    by apply (inj (String.app first)) in H. }
  exists st'. split_and!; [done..| |].
  - intros key Hkey. by rewrite get_first_prefix_only, Hgone.
  - destruct (clear_lookup (mkBase s false) first rest st')
      as (st'' & Hc' & Hl').
    rewrite Hc'. f_equal. apply map_eq. intros k. rewrite Hl', Hl.
    by case_decide.
Qed.

(** X6.  The last [set] of a key wins, and with fallbacks disabled [set]
    of one key leaves [get] of every other key as it was. *)
Theorem set_touches_one_key {QVariant : Type}
    (variantToString : QVariant → string)
    (stringToVariant : string → QVariant) (s : Status) (first : string)
    (rest : list string) (key : string) (value value' : QVariant)
    (st : gmap string string) :
  ∃ st',
    LocalStorage.set variantToString
      (LocalStorage.mk (mkBase s false) (first :: rest)) key value st
    = Some st'
    ∧ LocalStorage.set variantToString
        (LocalStorage.mk (mkBase s false) (first :: rest)) key value' st'
      = LocalStorage.set variantToString
          (LocalStorage.mk (mkBase s false) (first :: rest)) key value' st
    ∧ (∀ other, other ≠ key →
         LocalStorage.get stringToVariant
           (LocalStorage.mk (mkBase s false) (first :: rest)) other st'
         = LocalStorage.get stringToVariant
             (LocalStorage.mk (mkBase s false) (first :: rest)) other st).
Proof.
  unfold LocalStorage.set. cbn [LocalStorage.m_keyPrefixes head mbind
    option_bind]. eexists. split_and!; [done| |].
  - unfold LocalStorage.setItem. by rewrite insert_insert_eq.
  - intros other Hne. rewrite !get_first_prefix_only.
    unfold LocalStorage.setItem. rewrite lookup_insert_ne; [done|].
    intros H. by apply (inj (String.app first)) in H.
Qed.

(** ** Escaping and the first prefix *)

Lemma length_append (a b : string) :
  String.length (a +:+ b) = String.length a + String.length b.
Proof.
  induction a as [|c a IH]; [done|].
  rewrite append_cons. simpl. by rewrite IH.
Qed.

Lemma append_cancel_r (a a' t : string) : a +:+ t = a' +:+ t → a = a'.
Proof.
  revert a'. induction a as [|c a IH]; intros [|c' a'] H.
  - done.
  - apply (f_equal String.length) in H.
    rewrite !length_append in H. simpl in H. lia.
  - apply (f_equal String.length) in H.
    rewrite !length_append in H. simpl in H. lia.
  - rewrite !append_cons in H. injection H as -> H. f_equal. by apply IH.
Qed.

Lemma replace_dash_inj (s s' : string) :
  replace s "-" "--" = replace s' "-" "--" → s = s'.
Proof.
  revert s'. induction s as [|c s IH]; intros [|c' s'] H; simpl in H.
  - done.
  - destruct (Ascii.eqb c' "-"); [rewrite !append_cons in H|]; done.
  - destruct (Ascii.eqb c "-"); [rewrite !append_cons in H|]; done.
  - destruct (Ascii.eqb_spec c "-") as [->|Hc],
             (Ascii.eqb_spec c' "-") as [->|Hc'];
      rewrite ?append_cons in H; simplify_eq/=.
    + f_equal. apply IH. done.
    + f_equal. by apply IH.
Qed.

(** X7.  Escaping loses nothing: two names with the same escaped form are
    the same name. *)
Theorem escape_injective (s s' : string) :
  replace s "-" "--" = replace s' "-" "--" → s = s'.
Proof. apply replace_dash_inj. Qed.

Lemma escape_injective_witness : "Ac-me" = "Ac-me".
Proof. apply (escape_injective "Ac-me" "Ac-me"). reflexivity. Defined.

Lemma separator_cons (x : string) : "" +:+ "-" +:+ x = String "-" x.
Proof. reflexivity. Qed.

(** The separator behind an escaped name is found again, when what follows
    it does not start with a '-'. *)
Lemma escaped_separator_unique (o o' x x' : string) :
  startsWith x "-" = false → startsWith x' "-" = false →
  replace o "-" "--" +:+ "-" +:+ x = replace o' "-" "--" +:+ "-" +:+ x' →
  o = o' ∧ x = x'.
Proof.
  revert o'. induction o as [|c o IH]; intros [|c' o'] Hx Hx' H;
    cbn [replace] in H.
  - rewrite !separator_cons in H. by injection H as ->.
  - rewrite separator_cons in H.
    destruct (Ascii.eqb_spec c' "-") as [->|Hc'];
      rewrite !append_cons in H; injection H as H; [by subst x|done].
  - rewrite separator_cons in H.
    destruct (Ascii.eqb_spec c "-") as [->|Hc];
      rewrite !append_cons in H; injection H as H; [by subst x'|done].
  - destruct (Ascii.eqb_spec c "-") as [->|Hc],
             (Ascii.eqb_spec c' "-") as [->|Hc'];
      rewrite !append_cons in H.
    + injection H as H. destruct (IH o' Hx Hx' H) as [-> ->]; done.
    + injection H as H1 H2. done.
    + injection H as H1 H2. done.
    + injection H as -> H. destruct (IH o' Hx Hx' H) as [-> ->]; done.
Qed.

Lemma escaped_head (application t : string) :
  application ≠ "" → startsWith application "-" = false →
  startsWith (replace application "-" "--" +:+ t) "-" = false.
Proof.
  destruct application as [|c a]; [done|]. intros _ H.
  cbn [startsWith] in H. cbn [replace].
  destruct (Ascii.eqb_spec c "-") as [->|Hc]; [done|].
  rewrite append_cons. cbn [startsWith].
  by destruct (Ascii.eqb_spec "-" c) as [<-|].
Qed.

(** X8.  In one scope, two objects constructed with different
    organizations or applications write under different first prefixes,
    when the applications are not empty and do not start with a '-'. *)
Theorem first_prefix_injective (base0 base0' : QSettingsPrivate)
    (scope : Scope) (organization application : string)
    (organization' application' : string) :
  organization ≠ "" → organization' ≠ "" →
  application ≠ "" → application' ≠ "" →
  startsWith application "-" = false →
  startsWith application' "-" = false →
  head (LocalStorage.m_keyPrefixes
          (LocalStorage.ctor base0 scope organization application))
  = head (LocalStorage.m_keyPrefixes
            (LocalStorage.ctor base0' scope organization' application')) →
  organization = organization' ∧ application = application'.
Proof.
  intros Ho Ho' Ha Ha' Hd Hd'. rewrite !ctor_prefixes by done. cbv zeta.
  rewrite (proj2 (length_nonzero application) Ha),
    (proj2 (length_nonzero application') Ha').
  destruct scope; cbn [LocalStorage.m_keyPrefixes head]; intros H;
    apply (inj Some) in H; apply (inj (String.app "qt-v0-")) in H;
    apply escaped_separator_unique in H as [Horg Happ];
    try (by apply escaped_head);
    apply append_cancel_r in Happ;
    apply replace_dash_inj in Happ; done.
Qed.

Lemma first_prefix_injective_witness : "Acme" = "Acme" ∧ "Tool" = "Tool".
Proof.
  apply (first_prefix_injective (mkBase NoError true) (mkBase NoError false)
           SystemScope "Acme" "Tool" "Acme" "Tool"); done.
Defined.

(** ** Enumeration: [children] *)

Section ChildrenFacts.

Context {ChildSpec : Type}.
Variable processChild : string → ChildSpec → list string → list string.

(** The test of line 163 on a stored key: the key is a scope prefix
    followed by a name that is not empty and starts with [prefix]. *)
Lemma children_test (storagePrefix keyString prefix : string) :
  negb (isEmpty (keyNameFromPrefixedStorageName
                   (viewOf storagePrefix) (viewOf keyString)))
  && view_startsWith
       (keyNameFromPrefixedStorageName
          (viewOf storagePrefix) (viewOf keyString)) prefix = true
  ↔ ∃ name, keyString = storagePrefix +:+ name ∧ name ≠ ""
            ∧ startsWith name prefix = true.
Proof.
  rewrite andb_true_iff, negb_true_iff.
  destruct (startsWith keyString storagePrefix) eqn:Hs.
  - apply startsWith_true in Hs as [name ->]. rewrite keyName_match.
    unfold isEmpty, view_startsWith. simpl. rewrite length_nonzero. split.
    + intros [? ?]. by exists name.
    + intros (name' & Heq & ? & ?).
      apply (inj (String.app storagePrefix)) in Heq. by subst.
  - split.
    + intros [He _]. apply not_true_iff_false in He. destruct He.
      apply keyName_isEmpty. by left.
    + intros (name & -> & _). by rewrite startsWith_append in Hs.
Qed.

Lemma children_of_key_elem (prefixes : list string) (fb : bool)
    (keyString prefix : string) (spec : ChildSpec) (nodes : gset string)
    (child : string) :
  child ∈ LocalStorage.children_of_key processChild prefixes fb keyString
            prefix spec nodes
  ↔ child ∈ nodes
    ∨ LocalStorage.child_of processChild
        (if fb then prefixes else take 1 prefixes) keyString prefix spec child.
Proof.
  revert nodes. induction prefixes as [|p prefixes IH]; intros nodes.
  - cbn [LocalStorage.children_of_key]. split; [by left|].
    intros [?|(sp & name & Hin & _)]; [done|].
    destruct fb; by apply elem_of_nil in Hin.
  - cbn [LocalStorage.children_of_key].
    set (key := keyNameFromPrefixedStorageName (viewOf p) (viewOf keyString)).
    set (nodes1 :=
           if negb (isEmpty key) && view_startsWith key prefix
           then match head (processChild
                              (chars (view_sliced key (String.length prefix)))
                              spec []) with
                | Some c => {[ c ]} ∪ nodes
                | None => nodes
                end
           else nodes).
    assert (child ∈ nodes1
            ↔ child ∈ nodes
              ∨ LocalStorage.child_of processChild [p] keyString prefix spec
                  child)
      as Hnodes1.
    { unfold nodes1.
      destruct (negb (isEmpty key) && view_startsWith key prefix) eqn:Ht.
      - apply children_test in Ht as (name & -> & Hname & Hstarts).
        unfold key. rewrite keyName_match. simpl.
        destruct (head (processChild (sliced name (String.length prefix))
                          spec [])) as [c|] eqn:Hc.
        + rewrite elem_of_union, elem_of_singleton. split.
          * intros [->|?]; [|by left]. right. exists p, name.
            split_and!; [apply list_elem_of_here|done..].
          * intros [?|(sp & name' & Hin & Heq & _ & _ & Hhead)]; [by right|].
            apply list_elem_of_singleton in Hin as ->.
            apply (inj (String.app p)) in Heq as <-. left. congruence.
        + split; [by left|].
          intros [?|(sp & name' & Hin & Heq & _ & _ & Hhead)]; [done|].
          apply list_elem_of_singleton in Hin as ->.
          apply (inj (String.app p)) in Heq as <-. congruence.
      - split; [by left|].
        intros [?|(sp & name & Hin & Heq & Hname & Hstarts & _)]; [done|].
        apply list_elem_of_singleton in Hin as ->.
        apply not_true_iff_false in Ht. destruct Ht.
        apply children_test. by exists name. }
    destruct fb; cbn [negb].
    + rewrite IH, Hnodes1. unfold LocalStorage.child_of. split.
      * intros [[?|(sp & name & Hin & H)]|(sp & name & Hin & H)];
          [by left|right..]; exists sp, name; split; try done.
        -- apply list_elem_of_singleton in Hin as ->. apply list_elem_of_here.
        -- by apply list_elem_of_further.
      * intros [?|(sp & name & Hin & H)]; [by left; left|].
        apply elem_of_cons in Hin as [->|Hin].
        -- left. right. exists p, name. split; [apply list_elem_of_here|done].
        -- right. by exists sp, name.
    + exact Hnodes1.
Qed.

Lemma children_fold_elem (prefixes : list string) (fb : bool)
    (prefix : string) (spec : ChildSpec) (keys : list string)
    (nodes : gset string) (child : string) :
  child ∈ foldl
            (fun nodes keyString =>
               LocalStorage.children_of_key processChild prefixes fb
                 keyString prefix spec nodes)
            nodes keys
  ↔ child ∈ nodes
    ∨ ∃ keyString, keyString ∈ keys
        ∧ LocalStorage.child_of processChild
            (if fb then prefixes else take 1 prefixes) keyString prefix spec
            child.
Proof.
  revert nodes. induction keys as [|k keys IH]; intros nodes; cbn [foldl].
  - split; [by left|]. intros [?|(k & Hk & _)]; [done|].
    by apply elem_of_nil in Hk.
  - rewrite IH, children_of_key_elem. split.
    + intros [[?|?]|(k' & Hk' & ?)]; [by left|right..].
      * exists k. split; [apply list_elem_of_here|done].
      * exists k'. split; [by apply list_elem_of_further|done].
    + intros [?|(k' & Hk' & ?)]; [by left; left|].
      apply elem_of_cons in Hk' as [->|Hk'].
      * by left; right.
      * right. by exists k'.
Qed.

Lemma children_elem (d : LocalStorage.t) (prefix : string)
    (spec : ChildSpec) (st : gmap string string) (child : string) :
  child ∈ LocalStorage.children processChild d prefix spec st
  ↔ ∃ storagePrefix name,
      storagePrefix ∈ LocalStorage.consulted d
      ∧ is_Some (st !! (storagePrefix +:+ name))
      ∧ name ≠ ""
      ∧ startsWith name prefix = true
      ∧ head (processChild (sliced name (String.length prefix)) spec [])
        = Some child.
Proof.
  unfold LocalStorage.children.
  rewrite elem_of_elements, children_fold_elem.
  unfold LocalStorage.child_of, LocalStorage.consulted. split.
  - intros [?|(k & Hk & sp & name & Hin & -> & H)]; [done|].
    apply storedKeys_elem in Hk. by exists sp, name.
  - intros (sp & name & Hin & Hk & H). right.
    exists (sp +:+ name). split; [by apply storedKeys_elem|].
    by exists sp, name.
Qed.

(** X9.  [children] lists, without repetition, exactly the first results
    of [processChild] on the stored names that follow a consulted scope
    prefix, are not empty and start with [prefix], each cut behind
    [prefix]; the consulted prefixes are all of them, or the first only
    when fallbacks are disabled. *)
Theorem children_characterised (d : LocalStorage.t) (prefix : string)
    (spec : ChildSpec) (st : gmap string string) :
  NoDup (LocalStorage.children processChild d prefix spec st)
  ∧ ∀ child,
      child ∈ LocalStorage.children processChild d prefix spec st
      ↔ ∃ storagePrefix name,
          storagePrefix ∈ LocalStorage.consulted d
          ∧ is_Some (st !! (storagePrefix +:+ name))
          ∧ name ≠ ""
          ∧ startsWith name prefix = true
          ∧ head (processChild (sliced name (String.length prefix)) spec [])
            = Some child.
Proof.
  split; [apply NoDup_elements|]. intros child. apply children_elem.
Qed.

(** X10.  What [set] writes is enumerated: after [set] of a key that is
    not empty and starts with [prefix], [children] has the first result of
    [processChild] on the rest of the key. *)
Theorem set_then_children {QVariant : Type}
    (variantToString : QVariant → string) (b : QSettingsPrivate)
    (first : string) (rest : list string) (key prefix : string)
    (value : QVariant) (spec : ChildSpec) (child : string)
    (st : gmap string string) :
  key ≠ "" →
  startsWith key prefix = true →
  head (processChild (sliced key (String.length prefix)) spec [])
  = Some child →
  ∃ st',
    LocalStorage.set variantToString (LocalStorage.mk b (first :: rest))
      key value st = Some st'
    ∧ child ∈ LocalStorage.children processChild
                (LocalStorage.mk b (first :: rest)) prefix spec st'.
Proof.
  intros Hkey Hstarts Hhead. eexists. split; [reflexivity|].
  apply children_elem. exists first, key. split_and!; try done.
  - unfold LocalStorage.consulted. simpl.
    destruct (fallbacks b); apply list_elem_of_here.
  - unfold LocalStorage.setItem. rewrite lookup_insert_eq. by eexists.
Qed.

(** X11.  With fallbacks disabled [children] is empty after [clear], for
    every prefix and spec; and an object without prefixes, as an empty
    organization leaves it, enumerates nothing. *)
Theorem children_after_clear (s : Status) (first : string)
    (rest : list string) (prefix : string) (spec : ChildSpec)
    (st : gmap string string) :
  (∃ st',
     LocalStorage.clear (LocalStorage.mk (mkBase s false) (first :: rest)) st
     = Some st'
     ∧ LocalStorage.children processChild
         (LocalStorage.mk (mkBase s false) (first :: rest)) prefix spec st'
       = [])
  ∧ ∀ b, LocalStorage.children processChild (LocalStorage.mk b [])
           prefix spec st = [].
Proof.
  split.
  - destruct (clear_lookup (mkBase s false) first rest st)
      as (st' & Hc & Hl).
    exists st'. split; [done|]. apply elem_of_nil_inv. intros child Hchild.
    apply children_elem in Hchild
      as (sp & name & Hin & [v Hv] & Hname & _).
    unfold LocalStorage.consulted in Hin. simpl in Hin.
    apply list_elem_of_singleton in Hin as ->.
    rewrite Hl, decide_True in Hv; [done|].
    split; [apply startsWith_append|]. intros H.
    rewrite <- (append_empty_r first) in H at 2.
    by apply (inj (String.app first)) in H.
  - intros b. apply elem_of_nil_inv. intros child Hchild.
    apply children_elem in Hchild as (sp & name & Hin & _).
    unfold LocalStorage.consulted in Hin. simpl in Hin.
    destruct (fallbacks b); by apply elem_of_nil in Hin.
Qed.

End ChildrenFacts.

Lemma set_then_children_witness :
  ∃ st',
    LocalStorage.set (fun v : string => v)
      (LocalStorage.mk (mkBase NoError true) ["qt-v0-Acme-Tool-"])
      "group/x" "1" ∅ = Some st'
    ∧ "x" ∈ LocalStorage.children
              (fun (key : string) (_ : unit) (result : list string) =>
                 result ++ [key])
              (LocalStorage.mk (mkBase NoError true) ["qt-v0-Acme-Tool-"])
              "group/" () st'.
Proof.
  apply (set_then_children
           (fun (key : string) (_ : unit) (result : list string) =>
              result ++ [key])
           (fun v : string => v) (mkBase NoError true) "qt-v0-Acme-Tool-" []
           "group/x" "group/" "1" () "x" ∅); done.
Defined.

(** * The factory *)

Section CreateFacts.

Variables NativeFormat IniFormat InvalidFormat : Z.
Variable CustomFormats : list Z.

(** X12.  Without cookies [create] never constructs a back end on browser
    storage.  For the native format and the two web formats it prints one
    warning, which names the format, and constructs the file back end in
    [IniFormat]; for every other format it prints nothing. *)
Theorem create_without_cookies (format : Z) (scope : Scope)
    (organization application : string) :
  (format = NativeFormat ∨ format = (IniFormat + 1)%Z →
   create NativeFormat IniFormat InvalidFormat CustomFormats false format
     scope organization application
   = ([cookiesWarningMessage "WebLocalStorageFormat"],
      new_QConfFileSettingsPrivate IniFormat scope organization application))
  ∧ (format ≠ NativeFormat → format = (IniFormat + 2)%Z →
     create NativeFormat IniFormat InvalidFormat CustomFormats false format
       scope organization application
     = ([cookiesWarningMessage "WebIdbFormat"],
        new_QConfFileSettingsPrivate IniFormat scope organization
          application))
  ∧ (format ≠ NativeFormat → format ≠ (IniFormat + 1)%Z →
     format ≠ (IniFormat + 2)%Z →
     fst (create NativeFormat IniFormat InvalidFormat CustomFormats false
            format scope organization application) = [])
  ∧ (∀ s o a,
       snd (create NativeFormat IniFormat InvalidFormat CustomFormats false
              format scope organization application)
       ≠ new_QWasmLocalStorageSettingsPrivate s o a
       ∧ snd (create NativeFormat IniFormat InvalidFormat CustomFormats false
                format scope organization application)
         ≠ new_QWasmIDBSettingsPrivate s o a).
Proof.
  unfold create. split_and!.
  - intros Hf. rewrite (bool_decide_eq_true_2 (_ = (IniFormat + 1)%Z));
      [|case_bool_decide; [done|by destruct Hf]].
    cbn [negb andb]. rewrite !bool_decide_eq_false_2 by lia.
    rewrite bool_decide_eq_true_2; [done|by left].
  - intros Hn ->. rewrite (bool_decide_eq_false_2 (_ = NativeFormat)) by done.
    rewrite (bool_decide_eq_false_2 (_ = (IniFormat + 1)%Z)) by lia.
    rewrite (bool_decide_eq_true_2 (_ = (IniFormat + 2)%Z)) by done.
    cbn [negb andb]. rewrite !bool_decide_eq_false_2 by lia.
    rewrite bool_decide_eq_true_2; [done|by left].
  - intros Hn H1 H2.
    rewrite (bool_decide_eq_false_2 (_ = NativeFormat)) by done.
    rewrite !(bool_decide_eq_false_2 (format = _)) by done.
    cbn [negb andb]. by repeat case_bool_decide.
  - intros s o a. repeat case_bool_decide; simpl in *;
      repeat case_bool_decide; simpl; split; try discriminate; lia.
Qed.

(** X13.  With cookies [create] prints no warning; it constructs the
    localStorage back end exactly for the native format and for
    [IniFormat + 1], and the IndexedDB back end exactly for
    [IniFormat + 2] when that is not the native format; in both cases with
    the scope and the names it was given. *)
Theorem create_with_cookies (format : Z) (scope : Scope)
    (organization application : string) :
  fst (create NativeFormat IniFormat InvalidFormat CustomFormats true format
         scope organization application) = []
  ∧ (format = NativeFormat ∨ format = (IniFormat + 1)%Z
     ↔ snd (create NativeFormat IniFormat InvalidFormat CustomFormats true
              format scope organization application)
       = new_QWasmLocalStorageSettingsPrivate scope organization application)
  ∧ (format ≠ NativeFormat ∧ format = (IniFormat + 2)%Z
     ↔ snd (create NativeFormat IniFormat InvalidFormat CustomFormats true
              format scope organization application)
       = new_QWasmIDBSettingsPrivate scope organization application).
Proof.
  unfold create. cbn [negb]. rewrite !andb_false_r.
  split_and!; repeat case_bool_decide; simpl; try done;
    split; try done; try (intros [?|?]; done); try (intros [? ?]; lia);
    try lia; try (intros _; by left); try (intros _; by right).
Qed.

End CreateFacts.

(** * More of the IndexedDB back end *)

Section IDBMore.

Import IDB.

Lemma setStatus_at_flag (w w' : Program) (u : N) (s : Status) :
  setStatus_at w u s = Some w' → isReadReady w' = isReadReady w.
Proof.
  unfold setStatus_at. destruct (objects w !! u); intros H; by simplify_eq/=.
Qed.

(** X14.  The gate opens in one way only: a request of a live object
    completes, and it is the existence check that finds no file, or the
    load whose bytes could be written to the local file.  No constructor,
    destructor or member call, no error and no completed store or delete
    opens it. *)
Theorem gate_opens_only_when_hydrated (w w' : Program) (e : Event) :
  step w e = Done w' →
  isReadReady w = false →
  isReadReady w' = true →
  ∃ i u,
    u ∈ liveSettings w
    ∧ ((pending w !! i = Some (idb_async_exists u)
        ∧ e = ev_complete i (reply_exists false))
       ∨ ∃ data dirExists,
           pending w !! i = Some (idb_async_load u)
           ∧ e = ev_complete i (reply_loaded data dirExists true)).
Proof.
  intros Hstep Hw Hw'.
  destruct e as [p b sc org app|p|p|p f|p f|p|i reply];
    simpl in Hstep; unfold on_object in Hstep.
  - destruct (objects w !! p); simplify_eq/=. congruence.
  - destruct (objects w !! p); simplify_eq/=. congruence.
  - destruct (objects w !! p); simplify_eq/=. congruence.
  - destruct (objects w !! p); simplify_eq. unfold sync in Hw'.
    destruct f; simpl in Hw'; congruence.
  - destruct (objects w !! p); simplify_eq. unfold flush, sync in Hw'.
    destruct f; simpl in Hw'; congruence.
  - destruct (objects w !! p); simplify_eq. unfold initAccess in Hw'.
    rewrite Hw in Hw'. congruence.
  - destruct (pending w !! i) as [r|] eqn:Hi; [|done].
    destruct (callback (answered w i) r reply) as [[w1|]|] eqn:Hcb;
      simplify_eq.
    assert (∀ u, get (answered w i) u = None ∨ u ∈ liveSettings w) as Hlive.
    { intros u. unfold get. simpl. case_bool_decide; eauto. }
    assert (∀ u s, setStatus_at (answered w i) u s = Some w' → False)
      as Hstatus.
    { intros u s Hs. apply setStatus_at_flag in Hs. simpl in Hs. congruence. }
    destruct r as [u|u|d u|u], reply as [ex|data de op| |];
      simpl in Hcb; simplify_eq;
      unfold onCheck, onLoad, onStore, onError, loadLocal in Hcb;
      destruct (Hlive u) as [Hnone|Hu];
      try (rewrite Hnone in Hcb; simplify_eq; simpl in Hw'; congruence);
      rewrite (get_live (answered w i) u Hu) in Hcb;
      try (by destruct (Hstatus _ _ Hcb)).
    + destruct ex.
      * destruct (objects (answered w i) !! u); simplify_eq/=. congruence.
      * exists i, u. split; [done|]. by left.
    + destruct (objects (answered w i) !! u); [|done]. simpl in Hcb.
      destruct op.
      * exists i, u. split; [done|]. right. by exists data, de.
      * destruct de; simplify_eq/=; congruence.
Qed.

Lemma gate_opens_only_when_hydrated_witness :
  ∃ i u,
    u ∈ [1%N]
    ∧ (([idb_async_exists 1] !! i = Some (idb_async_exists u)
        ∧ ev_complete 0 (reply_exists false)
          = ev_complete i (reply_exists false))
       ∨ ∃ data dirExists,
           [idb_async_exists 1] !! i = Some (idb_async_load u)
           ∧ ev_complete 0 (reply_exists false)
             = ev_complete i (reply_loaded data dirExists true)).
Proof.
  apply (gate_opens_only_when_hydrated
           (mkProgram false [1%N]
              {[ 1%N := mkObject (mkBase AccessError true) "Acme" "Tool" ]}
              [idb_async_exists 1] [async (idb_async_exists 1)])
           (mkProgram true [1%N]
              {[ 1%N := mkObject (mkBase NoError true) "Acme" "Tool" ]}
              [] [async (idb_async_exists 1); conf_initAccess 1])
           (ev_complete 0 (reply_exists false)));
    [vm_compute; reflexivity | reflexivity | reflexivity].
Defined.

(** *** The registry *)

Lemma initial_registry_exact : registry_exact initial.
Proof.
  split; [apply NoDup_nil_2|]. intros p. simpl. rewrite lookup_empty.
  split; [by intros ?%elem_of_nil | by intros [? ?]].
Qed.

Lemma step_registry_exact (w w' : Program) (e : Event) :
  registry_exact w → step w e = Done w' → registry_exact w'.
Proof.
  intros [Hnd Hex] Hstep.
  destruct e as [p b sc org app|p|p|p f|p f|p|i reply];
    simpl in Hstep; unfold on_object in Hstep.
  - destruct (objects w !! p) eqn:Hp; simplify_eq. split; simpl.
    + apply NoDup_app. split_and!; [done| |apply NoDup_singleton].
      intros x Hx ->%list_elem_of_singleton.
      apply Hex in Hx as [? ?]. congruence.
    + intros q. rewrite elem_of_app, list_elem_of_singleton, Hex.
      destruct (decide (q = p)) as [->|Hne].
      * rewrite lookup_insert_eq. split; [by eexists | by right].
      * rewrite lookup_insert_ne by done. split; [by intros [?|?] | by left].
  - destruct (objects w !! p) eqn:Hp; simplify_eq. split; simpl.
    + by apply NoDup_filter.
    + intros q. rewrite list_elem_of_filter, Hex.
      destruct (decide (q = p)) as [->|Hne].
      * rewrite lookup_delete_eq. split; [by intros [? _] | by intros [? ?]].
      * rewrite lookup_delete_ne by done. split; [by intros [_ ?] | done].
  - by destruct (objects w !! p); simplify_eq.
  - destruct (objects w !! p); simplify_eq. unfold sync. by destruct f.
  - destruct (objects w !! p); simplify_eq. unfold flush, sync.
    by destruct f.
  - destruct (objects w !! p); simplify_eq. unfold initAccess.
    by destruct (isReadReady w).
  - destruct (pending w !! i) as [r|]; [|done].
    destruct (callback (answered w i) r reply) as [[w1|]|] eqn:Hcb;
      simplify_eq.
    apply callback_keeps in Hcb as (Hl & Ho & _). simpl in *.
    split; [by rewrite Hl|]. intros q. by rewrite Hl, Ho.
Qed.

Lemma run_registry_exact (w w' : Program) (es : list Event) :
  registry_exact w → run w es = Done w' → registry_exact w'.
Proof.
  revert w. induction es as [|e es IH]; intros w Hw; simpl.
  - by intros [= <-].
  - destruct (step w e) as [w1| |] eqn:He; [|done..].
    apply IH. by eapply step_registry_exact.
Qed.

(** X15.  In every state the program reaches from its initial state,
    [liveSettings] holds exactly the addresses of the objects that are
    constructed and not yet destroyed, each of them once. *)
Theorem registry_lists_live_objects (es : list Event) :
  run initial es = Refused
  ∨ ∃ w, run initial es = Done w
      ∧ NoDup (liveSettings w)
      ∧ ∀ p, p ∈ liveSettings w ↔ is_Some (objects w !! p).
Proof.
  destruct (run initial es) as [w| |] eqn:Hrun.
  - right. exists w. split; [done|].
    by apply (run_registry_exact initial w es initial_registry_exact).
  - by destruct (run_no_crash initial es initial_live_allocated).
  - by left.
Qed.

(** *** From construction to Ready *)

Lemma lookup_last_request (l : list Request) (r : Request) :
  (l ++ [r]) !! length l = Some r.
Proof. by apply list_lookup_middle. Qed.

Lemma delete_last_request (l : list Request) (r : Request) :
  delete (length l) (l ++ [r]) = l.
Proof. by rewrite delete_middle, app_nil_r. Qed.

Lemma step_new (w : Program) (this : N) (base0 : QSettingsPrivate)
    (scope : Scope) (organization application : string) :
  objects w !! this = None →
  step w (ev_new this base0 scope organization application)
  = Done (ctor w this base0 scope organization application).
Proof. intros H. simpl. by rewrite H. Qed.

Lemma step_complete_last (w : Program) (r : Request) (reply : Reply)
    (l : list Request) :
  pending w = l ++ [r] →
  step w (ev_complete (length l) reply)
  = match callback
            (mkProgram (isReadReady w) (liveSettings w) (objects w) l
               (calls w)) r reply with
    | None => Refused
    | Some None => Crashed
    | Some (Some w') => Done w'
    end.
Proof.
  intros H. simpl. unfold answered. rewrite H, lookup_last_request.
  by rewrite delete_last_request.
Qed.

Local Arguments step : simpl never.

(** The steps of the proofs below: the constructor, then the completion of
    the request made last. *)
Ltac hydrate w this :=
  cbn [run]; rewrite ?step_new by done;
  repeat
    (cbn [run];
     first
       [ rewrite (step_complete_last _ (idb_async_exists this) _ (pending w))
           by done
       | rewrite (step_complete_last _ (idb_async_load this) _ (pending w))
           by done ];
     cbn [callback]; unfold onCheck, onLoad, onError, loadLocal;
     rewrite get_live
       by (simpl; apply elem_of_app; right; apply list_elem_of_here);
     unfold setReady, setStatus_at, request, emit; simpl;
     repeat (rewrite lookup_insert_eq; simpl)).

(** X16.  What becomes of a newly constructed object, by the answers to
    its existence check and its load.  No file: Ready, status no error,
    nothing written.  A file that loads and can be written: the loaded
    bytes are written to the local file as they are, then Ready and no
    error.  A file that loads but cannot be written, or an error: the gate
    and the access error stay as the constructor left them.  In every case
    the requests in flight are again those of before the construction. *)
Theorem hydration_outcomes (w : Program) (this : N)
    (base0 : QSettingsPrivate) (scope : Scope)
    (organization application : string) :
  objects w !! this = None →
  run w [ ev_new this base0 scope organization application;
          ev_complete (length (pending w)) (reply_exists false) ]
  = Done (mkProgram true (liveSettings w ++ [this])
            (<[this := mkObject (mkBase NoError (fallbacks base0))
                         organization application]> (objects w))
            (pending w)
            (calls w ++ [async (idb_async_exists this);
                         conf_initAccess this]))
  ∧ (∀ data dirExists,
       run w [ ev_new this base0 scope organization application;
               ev_complete (length (pending w)) (reply_exists true);
               ev_complete (length (pending w))
                 (reply_loaded data dirExists true) ]
       = Done (mkProgram true (liveSettings w ++ [this])
                 (<[this := mkObject (mkBase NoError (fallbacks base0))
                              organization application]> (objects w))
                 (pending w)
                 (calls w
                    ++ [async (idb_async_exists this);
                        async (idb_async_load this)]
                    ++ (if dirExists then [] else [dir_mkpath this])
                    ++ [file_write this data; conf_initAccess this])))
  ∧ (∀ data dirExists,
       run w [ ev_new this base0 scope organization application;
               ev_complete (length (pending w)) (reply_exists true);
               ev_complete (length (pending w))
                 (reply_loaded data dirExists false) ]
       = Done (mkProgram (isReadReady w) (liveSettings w ++ [this])
                 (<[this := mkObject (mkBase AccessError (fallbacks base0))
                              organization application]> (objects w))
                 (pending w)
                 (calls w
                    ++ [async (idb_async_exists this);
                        async (idb_async_load this)]
                    ++ (if dirExists then [] else [dir_mkpath this]))))
  ∧ run w [ ev_new this base0 scope organization application;
            ev_complete (length (pending w)) reply_error ]
    = Done (mkProgram (isReadReady w) (liveSettings w ++ [this])
              (<[this := mkObject (mkBase AccessError (fallbacks base0))
                           organization application]> (objects w))
              (pending w)
              (calls w ++ [async (idb_async_exists this)]))
  ∧ run w [ ev_new this base0 scope organization application;
            ev_complete (length (pending w)) (reply_exists true);
            ev_complete (length (pending w)) reply_error ]
    = Done (mkProgram (isReadReady w) (liveSettings w ++ [this])
              (<[this := mkObject (mkBase AccessError (fallbacks base0))
                           organization application]> (objects w))
              (pending w)
              (calls w ++ [async (idb_async_exists this);
                           async (idb_async_load this)])).
Proof.
  intros Hnone. split_and!.
  - hydrate w this. by rewrite insert_insert_eq, <- app_assoc.
  - intros data [|]; hydrate w this;
      by rewrite insert_insert_eq, <- !app_assoc.
  - intros data [|]; hydrate w this; by rewrite <- ?app_assoc.
  - hydrate w this. by rewrite insert_insert_eq.
  - hydrate w this. by rewrite insert_insert_eq, <- app_assoc.
Qed.

Lemma hydration_outcomes_witness :
  run initial
    [ ev_new 1 (mkBase NoError true) UserScope "Acme" "Tool";
      ev_complete 0 (reply_exists true);
      ev_complete 0 (reply_loaded "[General]" false true) ]
  = Done (mkProgram true [1%N]
            {[ 1%N := mkObject (mkBase NoError true) "Acme" "Tool" ]} []
            [ async (idb_async_exists 1); async (idb_async_load 1);
              dir_mkpath 1; file_write 1 "[General]"; conf_initAccess 1 ]).
Proof.
  apply (proj1 (proj2 (hydration_outcomes initial 1 (mkBase NoError true)
                         UserScope "Acme" "Tool" eq_refl))
           "[General]" false).
Defined.

(** *** Writing back *)

Ltac persist w this :=
  cbn [run]; unfold step at 1, on_object;
  match goal with H : objects w !! this = Some _ |- _ => rewrite H end;
  unfold flush, sync, clear, request, emit;
  cbn [run];
  match goal with
  | |- context [step ?w1 (ev_complete _ ?reply)] =>
      rewrite (step_complete_last w1 _ reply (pending w)) by done
  end;
  cbn [callback]; unfold onStore, onError;
  rewrite get_live by done;
  unfold setStatus_at; simpl;
  match goal with H : objects w !! this = Some _ |- _ => rewrite H end;
  simpl.

(** X17.  What [sync], [flush] and [clear] of a live object come to.  The
    embedded engine is synchronised or cleared at once; [sync] sends the
    bytes read from the local file, and sends nothing when the file cannot
    be opened; a store or delete that succeeds leaves the object with
    status no error, one that fails with the access error; none of them
    changes the gate, and the requests in flight are again those of before
    the call. *)
Theorem persist_outcomes (w : Program) (this : N) (o : Object)
    (data : string) :
  this ∈ liveSettings w →
  objects w !! this = Some o →
  run w [ ev_sync this (Some data);
          ev_complete (length (pending w)) reply_stored ]
  = Done (mkProgram (isReadReady w) (liveSettings w)
            (<[this := mkObject (setStatus (base o) NoError)
                         (databaseName o) (id o)]> (objects w))
            (pending w)
            (calls w ++ [conf_sync this; async (idb_async_store data this)]))
  ∧ run w [ ev_sync this (Some data);
            ev_complete (length (pending w)) reply_error ]
    = Done (mkProgram (isReadReady w) (liveSettings w)
              (<[this := mkObject (setStatus (base o) AccessError)
                           (databaseName o) (id o)]> (objects w))
              (pending w)
              (calls w
                 ++ [conf_sync this; async (idb_async_store data this)]))
  ∧ run w [ev_sync this None]
    = Done (mkProgram (isReadReady w) (liveSettings w) (objects w)
              (pending w) (calls w ++ [conf_sync this]))
  ∧ run w [ev_flush this (Some data)] = run w [ev_sync this (Some data)]
  ∧ run w [ ev_clear this;
            ev_complete (length (pending w)) reply_stored ]
    = Done (mkProgram (isReadReady w) (liveSettings w)
              (<[this := mkObject (setStatus (base o) NoError)
                           (databaseName o) (id o)]> (objects w))
              (pending w)
              (calls w ++ [conf_clear this; async (idb_async_delete this)]))
  ∧ run w [ ev_clear this;
            ev_complete (length (pending w)) reply_error ]
    = Done (mkProgram (isReadReady w) (liveSettings w)
              (<[this := mkObject (setStatus (base o) AccessError)
                           (databaseName o) (id o)]> (objects w))
              (pending w)
              (calls w ++ [conf_clear this; async (idb_async_delete this)])).
Proof.
  intros Hlive Ho. split_and!.
  - persist w this. by rewrite <- app_assoc.
  - persist w this. by rewrite <- app_assoc.
  - cbn [run]. unfold step, on_object. by rewrite Ho.
  - done.
  - persist w this. by rewrite <- app_assoc.
  - persist w this. by rewrite <- app_assoc.
Qed.

Lemma persist_outcomes_witness :
  run (mkProgram true [1%N]
         {[ 1%N := mkObject (mkBase AccessError true) "Acme" "Tool" ]} [] [])
    [ ev_sync 1 (Some "[General]"); ev_complete 0 reply_stored ]
  = Done (mkProgram true [1%N]
            {[ 1%N := mkObject (mkBase NoError true) "Acme" "Tool" ]} []
            [conf_sync 1; async (idb_async_store "[General]" 1)]).
Proof.
  exact (proj1 (persist_outcomes
                  (mkProgram true [1%N]
                     {[ 1%N := mkObject (mkBase AccessError true)
                                 "Acme" "Tool" ]} [] [])
                  1 (mkObject (mkBase AccessError true) "Acme" "Tool")
                  "[General]" ltac:(apply list_elem_of_here) eq_refl)).
Defined.

End IDBMore.

(** * The keys of other programs *)

Lemma exec_frame {QVariant : Type} (variantToString : QVariant → string)
    (b : QSettingsPrivate) (first : string) (rest : list string)
    (o : LocalStorage.Op QVariant) (st : gmap string string) (k : string) :
  startsWith k first = false →
  ∃ st',
    LocalStorage.exec variantToString (LocalStorage.mk b (first :: rest)) o st
    = Some st'
    ∧ st' !! k = st !! k.
Proof.
  intros Hk.
  destruct (frame_of_first_prefix b first rest
              match o with LocalStorage.op_remove key => key | _ => "" end st)
    as (st_r & st_c & Hr & Hc & Hframe & _).
  destruct o as [key value|key| | |]; simpl.
  - eexists. split; [reflexivity|]. unfold LocalStorage.setItem.
    rewrite lookup_insert_ne; [done|]. intros <-.
    by rewrite startsWith_append in Hk.
  - exists st_r. split; [done|]. by apply Hframe.
  - exists st_c. split; [done|]. by apply Hframe.
  - by eexists.
  - by eexists.
Qed.

(** X18.  An object constructed with an organization that is not empty
    changes no entry of [window.localStorage] whose key does not start with
    "qt-v0-", the escaped organization and "-": whatever it sets, removes
    or clears, the keys of other programs on the page stay as they are. *)
Theorem other_keys_untouched {QVariant : Type}
    (variantToString : QVariant → string) (base0 : QSettingsPrivate)
    (scope : Scope) (organization application : string)
    (o : LocalStorage.Op QVariant) (st : gmap string string) (k : string) :
  organization ≠ "" →
  startsWith k ("qt-v0-" +:+ replace organization "-" "--" +:+ "-") = false →
  ∃ st',
    LocalStorage.exec variantToString
      (LocalStorage.ctor base0 scope organization application) o st
    = Some st'
    ∧ st' !! k = st !! k.
Proof.
  intros Horg Hk. rewrite ctor_prefixes by done. cbv zeta.
  destruct scope, (Nat.eqb (String.length application) 0);
    apply exec_frame;
    match goal with
    | |- startsWith k ?p = false =>
        destruct (startsWith k p) eqn:Hs; [|done];
        rewrite (startsWith_trans k p _ Hs) in Hk; [done|]
    end;
    apply startsWith_true; eexists; rewrite !append_assoc; reflexivity.
Qed.

Lemma other_keys_untouched_witness :
  ∃ st',
    LocalStorage.exec (fun v : string => v)
      (LocalStorage.ctor (mkBase NoError true) UserScope "Acme" "Tool")
      LocalStorage.op_clear {[ "theme" := "dark" ]} = Some st'
    ∧ st' !! "theme" = Some "dark".
Proof.
  destruct (other_keys_untouched (fun v : string => v) (mkBase NoError true)
              UserScope "Acme" "Tool" LocalStorage.op_clear
              {[ "theme" := "dark" ]} "theme" ltac:(done) eq_refl)
    as (st' & Hexec & Hk).
  exists st'. split; [exact Hexec|]. rewrite Hk. apply lookup_singleton_eq.
Defined.

(** ** Completions after a destruction *)

Section IDBDiscard.

Import IDB.

(** X19.  A callback whose pointer is not in [liveSettings] returns the
    program as it found it and goes through no pointer; the destructor
    takes its object out of [liveSettings]; and after the destruction of an
    object, through every run in which no object is constructed at its
    address, a request that carries the address completes with no change
    to the program but that the request is no longer in flight. *)
Theorem callbacks_after_destruction :
  (∀ (w : Program) (userData : N),
     userData ∉ liveSettings w →
     get w userData = None
     ∧ (∀ exists_, onCheck w userData exists_ = Some w)
     ∧ (∀ data dirExists opened,
          onLoad w userData data dirExists opened = Some w)
     ∧ onStore w userData = Some w
     ∧ onError w userData = Some w)
  ∧ (∀ (w : Program) (this : N),
       (this ∉ liveSettings (dtor w this))
       ∧ objects (dtor w this) !! this = None)
  ∧ (∀ (w w1 : Program) (this : N) (es : list Event) (i : nat)
       (r : Request) (reply : Reply),
       is_Some (objects w !! this) →
       forallb (fun e => negb (constructs this e)) es = true →
       run (dtor w this) es = Done w1 →
       pending w1 !! i = Some r →
       userData_of r = this →
       fits r reply = true →
       run w (ev_delete this :: es ++ [ev_complete i reply])
       = Done (answered w1 i)).
Proof.
  split_and!.
  - intros w u Hu. pose proof (proj1 (get_miss w u) Hu) as Hget.
    unfold onCheck, onLoad, onStore, onError. rewrite Hget. done.
  - intros w this. split; [apply dtor_not_live | apply lookup_delete_eq].
  - intros w w1 this es i r reply [o Ho] Hes Hrun Hi Hr Hfits.
    cbn [run]. simpl step. unfold on_object. rewrite Ho.
    rewrite run_app, Hrun. simpl. rewrite Hi.
    rewrite callback_miss, Hfits; [done|].
    rewrite Hr. simpl.
    eapply run_not_live; [apply (dtor_not_live w this)|done..].
Qed.

Lemma callbacks_after_destruction_witness :
  final (run (ctor initial 7 (mkBase NoError true) UserScope "Acme" "Tool")
           (ev_delete 7
            :: [ ev_new 8 (mkBase NoError true) UserScope "Acme" "Other";
                 ev_sync 8 None ]
            ++ [ev_complete 0 (reply_exists false)]))
    ≫= (fun w => Some (isReadReady w, liveSettings w, status_of w 8,
                       pending w))
  = Some (false, [8%N], Some AccessError, [idb_async_exists 8]).
Proof.
  rewrite (proj2 (proj2 callbacks_after_destruction)
             (ctor initial 7 (mkBase NoError true) UserScope "Acme" "Tool")
             (mkProgram false [8%N]
                {[ 8%N := mkObject (mkBase AccessError true)
                            "Acme" "Other" ]}
                [idb_async_exists 7; idb_async_exists 8]
                [async (idb_async_exists 7); async (idb_async_exists 8);
                 conf_sync 8])
             7%N _ 0 (idb_async_exists 7) (reply_exists false));
    [ vm_compute; reflexivity
    | vm_compute; by eexists
    | reflexivity
    | vm_compute; reflexivity
    | reflexivity.. ].
Defined.

End IDBDiscard.
